(** * glsdl: a shallow embedding of main.go

    The program fetches the GolangShow feed, downloads the cover and every
    episode in batches of [threads] goroutines and writes ID3 tags.

    Layout of this file:
    - Go values: [int] with wrap-around, byte strings, UTF-8 decoding;
    - the part of [regexp] that [parsePattern] uses, with leftmost-first
      (backtracking) semantics, and [FindStringSubmatch];
    - the [Glsdl] struct, the feed types, and the calls that leave the
      program ([Env]) with the events they produce;
    - [parseTitle], [downloadFile], [worker], the cover closure;
    - the main goroutine of [Process] as a list of scheduler actions and an
      interleaving semantics of goroutines over a [sync.WaitGroup];
    - the theorems. *)

From Stdlib Require Import ZArith List String Ascii Bool Lia Permutation.
From Stdlib Require Import DecimalString.
From Stdlib Require DecimalZ.
Import ListNotations.

Local Open Scope Z_scope.

(* ------------------------------------------------------------------ *)
(** ** Go [int] (64-bit two's complement) *)

Definition MaxInt : Z := 2 ^ 63 - 1.
Definition MinInt : Z := - 2 ^ 63.

Definition int_wrap (z : Z) : Z := (z + 2 ^ 63) mod 2 ^ 64 - 2 ^ 63.

(** [x++] on an [int]. *)
Definition int_incr (z : Z) : Z := int_wrap (z + 1).

(** [strconv.Itoa]. *)
Definition strconv_Itoa (z : Z) : string := NilZero.string_of_int (Z.to_int z).

(* ------------------------------------------------------------------ *)
(** ** Strings are byte strings; runes are decoded as [unicode/utf8] does *)

Definition rune := Z.
Definition RuneError : rune := 65533.

Definition byteZ (a : ascii) : Z := Z.of_N (N_of_ascii a).

Definition between (lo hi b : Z) : bool := (lo <=? b) && (b <=? hi).

(** [utf8.DecodeRuneInString]: the rune, its width and the rest of the
    string; [None] on the empty string.  An invalid or short encoding is
    [RuneError] of width 1. *)
Definition DecodeRuneInString (s : string) : option (rune * nat * string) :=
  match s with
  | EmptyString => None
  | String a0 s1 =>
      let b0 := byteZ a0 in
      let bad := Some (RuneError, 1%nat, s1) in
      if b0 <? 128 then Some (b0, 1%nat, s1)
      else if b0 <? 194 then bad
      else if b0 <? 224 then
        match s1 with
        | String a1 s2 =>
            let b1 := byteZ a1 in
            if between 128 191 b1
            then Some (Z.lor (Z.shiftl (Z.land b0 31) 6) (Z.land b1 63), 2%nat, s2)
            else bad
        | _ => bad
        end
      else if b0 <? 240 then
        match s1 with
        | String a1 (String a2 s3) =>
            let b1 := byteZ a1 in
            let b2 := byteZ a2 in
            let lo := if b0 =? 224 then 160 else 128 in
            let hi := if b0 =? 237 then 159 else 191 in
            if between lo hi b1 && between 128 191 b2
            then Some (Z.lor (Z.shiftl (Z.land b0 15) 12)
                         (Z.lor (Z.shiftl (Z.land b1 63) 6) (Z.land b2 63)),
                       3%nat, s3)
            else bad
        | _ => bad
        end
      else if b0 <? 245 then
        match s1 with
        | String a1 (String a2 (String a3 s4)) =>
            let b1 := byteZ a1 in
            let b2 := byteZ a2 in
            let b3 := byteZ a3 in
            let lo := if b0 =? 240 then 144 else 128 in
            let hi := if b0 =? 244 then 143 else 191 in
            if between lo hi b1 && between 128 191 b2 && between 128 191 b3
            then Some (Z.lor (Z.shiftl (Z.land b0 7) 18)
                         (Z.lor (Z.shiftl (Z.land b1 63) 12)
                            (Z.lor (Z.shiftl (Z.land b2 63) 6) (Z.land b3 63))),
                       4%nat, s4)
            else bad
        | _ => bad
        end
      else bad
  end.

(** The runes of a string, as [range] over a string yields them. *)
Fixpoint runes_fuel (fuel : nat) (s : string) : list rune :=
  match fuel with
  | O => []
  | S f =>
      match DecodeRuneInString s with
      | None => []
      | Some (r, _, s') => r :: runes_fuel f s'
      end
  end.

Definition runes (s : string) : list rune := runes_fuel (String.length s) s.

(** [strings.Replace(s, old, new, -1)] for a one-byte [old]. *)
Fixpoint strings_Replace (s : string) (old : ascii) (new : string) : string :=
  match s with
  | EmptyString => EmptyString
  | String a s' =>
      if Ascii.eqb a old then (new ++ strings_Replace s' old new)%string
      else String a (strings_Replace s' old new)
  end.

(** [strings.Join]. *)
Fixpoint strings_Join (l : list string) (sep : string) : string :=
  match l with
  | [] => EmptyString
  | [x] => x
  | x :: rest => (x ++ sep ++ strings_Join rest sep)%string
  end.

(** Does the byte [c] occur in [s]? *)
Fixpoint contains_byte (c : ascii) (s : string) : bool :=
  match s with
  | EmptyString => false
  | String a s' => Ascii.eqb a c || contains_byte c s'
  end.

(* ------------------------------------------------------------------ *)
(** ** Regular expressions

    The operators of [regexp/syntax] that the pattern of [NewGlsdl] needs.
    Matching is leftmost-first: among the matches that start earliest, the
    one a backtracking matcher finds first, which is what package [regexp]
    documents for its non-POSIX mode. *)

Inductive Regexp : Type :=
| EmptyMatch
| CharClass (ranges : list (rune * rune))
| AnyCharNotNL
| BeginText
| EndText
| Concat (a b : Regexp)
| Star (greedy : bool) (a : Regexp)
| Plus (greedy : bool) (a : Regexp)
| Capture (i : nat) (a : Regexp).

Definition inClass (r : rune) (ranges : list (rune * rune)) : bool :=
  existsb (fun lh => between (fst lh) (snd lh) r) ranges.

(** Capture registers: group index, start and end byte offsets. *)
Definition Caps := list (nat * (nat * nat)).

(** A continuation gets the current offset, the rest of the input and the
    captures so far. *)
Definition Cont := nat -> string -> Caps -> option (nat * Caps).

(** Repetition of the matcher [m].  An iteration that consumes nothing is
    not repeated; [fuel] is one more than the bytes left, so it never runs
    out before the input does. *)
Fixpoint star (m : Cont -> Cont) (greedy : bool) (k : Cont) (fuel : nat)
  : Cont :=
  fun pos s c =>
    match fuel with
    | O => k pos s c
    | S f =>
        let again :=
          fun (_ : unit) =>
            m (fun pos' s' c' =>
                 if (pos <? pos')%nat then star m greedy k f pos' s' c'
                 else None) pos s c in
        if greedy then
          match again tt with
          | Some r => Some r
          | None => k pos s c
          end
        else
          match k pos s c with
          | Some r => Some r
          | None => again tt
          end
    end.

Fixpoint rmatch (r : Regexp) (k : Cont) {struct r} : Cont :=
  match r with
  | EmptyMatch => k
  | CharClass ranges =>
      fun pos s c =>
        match DecodeRuneInString s with
        | Some (x, w, s') => if inClass x ranges then k (pos + w)%nat s' c else None
        | None => None
        end
  | AnyCharNotNL =>
      fun pos s c =>
        match DecodeRuneInString s with
        | Some (x, w, s') => if x =? 10 then None else k (pos + w)%nat s' c
        | None => None
        end
  | BeginText => fun pos s c => if (pos =? 0)%nat then k pos s c else None
  | EndText =>
      fun pos s c =>
        match s with
        | EmptyString => k pos s c
        | _ => None
        end
  | Concat a b => rmatch a (rmatch b k)
  | Star g a =>
      fun pos s c => star (rmatch a) g k (S (String.length s)) pos s c
  | Plus g a =>
      rmatch a (fun pos s c => star (rmatch a) g k (S (String.length s)) pos s c)
  | Capture i a =>
      fun pos s c =>
        rmatch a (fun pos' s' c' => k pos' s' ((i, (pos, pos')) :: c')) pos s c
  end.

(** Number of capture groups. *)
Fixpoint NumSubexp (r : Regexp) : nat :=
  match r with
  | Concat a b => Nat.max (NumSubexp a) (NumSubexp b)
  | Star _ a | Plus _ a => NumSubexp a
  | Capture i a => Nat.max i (NumSubexp a)
  | _ => 0%nat
  end.

(** Unanchored search: the first start offset, rune by rune, at which the
    expression matches. *)
Fixpoint search (r : Regexp) (fuel pos : nat) (s : string)
  : option (nat * nat * Caps) :=
  match rmatch r (fun p _ c => Some (p, c)) pos s [] with
  | Some (e, c) => Some (pos, e, c)
  | None =>
      match fuel with
      | O => None
      | S f =>
          match DecodeRuneInString s with
          | None => None
          | Some (_, w, s') => search r f (pos + w)%nat s'
          end
      end
  end.

Fixpoint lookup_cap (i : nat) (c : Caps) : option (nat * nat) :=
  match c with
  | [] => None
  | (j, se) :: c' => if (i =? j)%nat then Some se else lookup_cap i c'
  end.

(** [Regexp.FindStringSubmatch]: [nil] when there is no match, else the
    whole match followed by the text of every group (empty for a group that
    did not take part). *)
Definition FindStringSubmatch (re : Regexp) (s : string) : list string :=
  match search re (String.length s) 0 s with
  | None => []
  | Some (b, e, c) =>
      substring b (e - b) s ::
      map (fun i => match lookup_cap i c with
                    | Some (x, y) => substring x (y - x) s
                    | None => EmptyString
                    end)
          (seq 1 (NumSubexp re))
  end.

Definition Seq (l : list Regexp) : Regexp := fold_right Concat EmptyMatch l.

(** Perl class [\s] and POSIX class [[:alnum:]] of RE2. *)
Definition class_space : Regexp :=
  CharClass [(9, 10); (12, 13); (32, 32)].
Definition class_alnum : Regexp :=
  CharClass [(48, 57); (65, 90); (97, 122)].

(** A bracket expression that lists single characters. *)
Definition class_of_chars (s : string) : Regexp :=
  CharClass (map (fun r => (r, r)) (runes s)).

(** [regexp.MustCompile(`^[Выпуск|Episode]+\s+([[:alnum:]]+)\.*\s*(.*?)$`)].
    Inside the brackets the bar is a literal character. *)
Definition glsPattern : Regexp :=
  Seq [ BeginText;
        Plus true (class_of_chars "Выпуск|Episode");
        Plus true class_space;
        Capture 1 (Plus true class_alnum);
        Star true (CharClass [(46, 46)]);
        Star true class_space;
        Capture 2 (Star false AnyCharNotNL);
        EndText ].

(* ------------------------------------------------------------------ *)
(** ** The feed, as package gofeed hands it over

    Only the fields the program reads.  [Author] and the feed image are
    pointers in gofeed and are nil when the feed has no such element. *)

Record Enclosure : Type := { URL : string; Length : string }.

Record Person : Type := { Name : string }.

Record Image : Type := { ImageURL : string }.

Record Item : Type := {
  Title : string;
  Published : string;
  Author : option Person;
  Enclosures : list Enclosure
}.

Record Feed : Type := { FeedImage : option Image; Items : list Item }.

(* ------------------------------------------------------------------ *)
(** ** The [Glsdl] struct

    [source] and [statTime] (an I/O handle and a wall-clock duration) are
    left out; [waitGroup] is the counter of the [sync.WaitGroup]. *)

Record Glsdl : Type := {
  threads : Z;
  waitGroup : Z;
  parsePattern : Regexp;
  downloadDir : string;
  statDl : Z;
  statProcess : Z;
  statFail : Z
}.

Definition set_waitGroup (v : Z) (d : Glsdl) : Glsdl :=
  {| threads := threads d; waitGroup := v; parsePattern := parsePattern d;
     downloadDir := downloadDir d; statDl := statDl d;
     statProcess := statProcess d; statFail := statFail d |}.

Definition set_statDl (v : Z) (d : Glsdl) : Glsdl :=
  {| threads := threads d; waitGroup := waitGroup d;
     parsePattern := parsePattern d; downloadDir := downloadDir d;
     statDl := v; statProcess := statProcess d; statFail := statFail d |}.

Definition set_statProcess (v : Z) (d : Glsdl) : Glsdl :=
  {| threads := threads d; waitGroup := waitGroup d;
     parsePattern := parsePattern d; downloadDir := downloadDir d;
     statDl := statDl d; statProcess := v; statFail := statFail d |}.

Definition set_statFail (v : Z) (d : Glsdl) : Glsdl :=
  {| threads := threads d; waitGroup := waitGroup d;
     parsePattern := parsePattern d; downloadDir := downloadDir d;
     statDl := statDl d; statProcess := statProcess d; statFail := v |}.

(* ------------------------------------------------------------------ *)
(** ** The world outside the program

    Every call that leaves the program returns what [Env] says; an error
    is its message.  [time_Parse] gives the year of the parsed time, or
    [None] where [time.Parse(time.RFC1123Z, _)] returns an error. *)

Inductive StatResult : Type :=
| StatOk
| StatNotExist
| StatErr (msg : string).

Record Env : Type := {
  PathSeparator : ascii;
  os_Stat : string -> StatResult;
  os_Create : string -> option string;
  http_Get : string -> option string;
  io_Copy : string -> string -> option string;
  file_Close : string -> option string;
  body_Close : string -> option string;
  id3_Open : string -> option string;
  tag_Close : string -> option string;
  time_Parse : string -> option Z
}.

(** The constant [ps]. *)
Definition ps (e : Env) : string := String (PathSeparator e) EmptyString.

(** [Time{}.Year()], the year [time.Parse] leaves when it fails. *)
Definition zeroTimeYear : Z := 1.

(** What a goroutine does to the outside, each call with its result. *)
Inductive Event : Type :=
| EStat (path : string) (r : StatResult)
| ECreate (path : string) (r : option string)
| EHttpGet (url : string) (r : option string)
| ECopy (url dest : string) (r : option string)
| ECloseFile (path : string) (r : option string)
| ECloseBody (url : string) (r : option string)
| ELog (msg : string)
| EPrintln (line : string)
| EId3Open (path : string) (r : option string)
| ESetTitle (path v : string)
| ESetArtist (path v : string)
| ESetAlbum (path v : string)
| ESetGenre (path v : string)
| ESetYear (path v : string)
| ETagClose (path : string) (r : option string).

(** How a function ends: it returns, or it panics. *)
Inductive Outcome (A : Type) : Type :=
| Ret (a : A)
| Panic (msg : string).

Arguments Ret {A} a.
Arguments Panic {A} msg.

(** A method of [*Glsdl]: it reads and updates the struct and emits events. *)
Definition M (A : Type) : Type := Glsdl -> Outcome A * Glsdl * list Event.

Definition ret {A : Type} (a : A) : M A := fun d => (Ret a, d, []).

Definition bind {A B : Type} (m : M A) (f : A -> M B) : M B :=
  fun d =>
    match m d with
    | (Ret a, d', ev) =>
        match f a d' with
        | (r, d'', ev') => (r, d'', ev ++ ev')
        end
    | (Panic msg, d', ev) => (Panic msg, d', ev)
    end.

Definition panic {A : Type} (msg : string) : M A := fun d => (Panic msg, d, []).

Definition emit (e : Event) : M unit := fun d => (Ret tt, d, [e]).

Definition get : M Glsdl := fun d => (Ret d, d, []).

Definition modify (f : Glsdl -> Glsdl) : M unit := fun d => (Ret tt, f d, []).

Definition lift {A : Type} (o : Outcome A) : M A := fun d => (o, d, []).

(** [defer deferred; body]: the deferred call runs when the body ends, also
    when it ends in a panic. *)
Definition defer {A : Type} (deferred : M unit) (body : M A) : M A :=
  fun d =>
    match body d with
    | (r, d', ev) =>
        match deferred d' with
        | (_, d'', ev') => (r, d'', ev ++ ev')
        end
    end.

Declare Scope go_scope.
Delimit Scope go_scope with go.
Notation "x <- m ;; k" := (bind m (fun x => k))
  (at level 61, m at next level, right associativity) : go_scope.
Notation "m ;; k" := (bind m (fun _ => k))
  (at level 61, right associativity) : go_scope.

Local Open Scope string_scope.
Local Open Scope go_scope.

(** [log.Println(err)] when [err != nil]. *)
Definition log_if (err : option string) : M unit :=
  match err with
  | Some msg => emit (ELog msg)
  | None => ret tt
  end.

Definition waitGroup_Add (n : Z) : M unit :=
  modify (fun d => set_waitGroup (waitGroup d + n) d).

Definition waitGroup_Done : M unit := waitGroup_Add (-1).

(** [NewGlsdl]; [homeDir] is [usr.HomeDir]. *)
Definition NewGlsdl (e : Env) (homeDir : string) (threads : Z) : Glsdl :=
  {| threads := threads;
     waitGroup := 0;
     parsePattern := glsPattern;
     downloadDir := strings_Join [homeDir; "Music"; "Podcast"; "GolangShow"] (ps e);
     statDl := 0;
     statProcess := 0;
     statFail := 0 |}.

(** [parseTitle].  [res[1]] and [res[2]] panic when the slice is shorter,
    [item.Author.Name] when the author is nil. *)
Definition parseTitle (e : Env) (dl : Glsdl) (item : Item)
  : Outcome (string * string) :=
  let res := FindStringSubmatch (parsePattern dl) (Title item) in
  if (List.length res =? 0)%nat then Ret ("", Title item)
  else
    match nth_error res 1, nth_error res 2 with
    | Some prefix, Some title =>
        if (String.length title =? 0)%nat then
          match Author item with
          | Some a => Ret (prefix, strings_Replace (Name a) (PathSeparator e) "_")
          | None => Panic "invalid memory address or nil pointer dereference"
          end
        else Ret (prefix, strings_Replace title (PathSeparator e) "_")
    | _, _ => Panic "index out of range"
    end.

(** [downloadFile].  The two deferred closures log a close error into a
    variable of their own, so the error returned is never theirs. *)
Definition downloadFile (e : Env) (url dest : string) : M (option string) :=
  emit (ECreate dest (os_Create e dest)) ;;
  match os_Create e dest with
  | Some err => ret (Some err)
  | None =>
      defer (emit (ECloseFile dest (file_Close e dest)) ;;
             log_if (file_Close e dest))
        (emit (EHttpGet url (http_Get e url)) ;;
         match http_Get e url with
         | Some err => ret (Some err)
         | None =>
             defer (emit (ECloseBody url (body_Close e url)) ;;
                    log_if (body_Close e url))
               (emit (ECopy url dest (io_Copy e url dest)) ;;
                match io_Copy e url dest with
                | Some err => ret (Some err)
                | None =>
                    modify (fun d => set_statDl (int_incr (statDl d)) d) ;;
                    ret None
                end)
         end)
  end.

(** The name of the media file of an item. *)
Definition mediaFile (e : Env) (dl : Glsdl) (prefix title : string) : string :=
  downloadDir dl ++ ps e ++ prefix ++ " - " ++ title ++ ".mp3".

(** [worker], from the ID3 part on: the file is there. *)
Definition tagFile (e : Env) (item : Item) (filename finalTitle : string)
  (opts : list string) : M unit :=
  emit (EId3Open filename (id3_Open e filename)) ;;
  match id3_Open e filename with
  | Some err =>
      emit (ELog err) ;;
      modify (fun d => set_statFail (int_incr (statFail d)) d)
  | None =>
      let published :=
        match time_Parse e (Published item) with
        | Some y => y
        | None => zeroTimeYear
        end in
      emit (ESetTitle filename finalTitle) ;;
      match Author item with
      | None => panic "invalid memory address or nil pointer dereference"
      | Some a =>
          emit (ESetArtist filename (Name a)) ;;
          emit (ESetAlbum filename "GolangShow") ;;
          emit (ESetGenre filename "Technology") ;;
          emit (ESetYear filename (strconv_Itoa published)) ;;
          defer (emit (ETagClose filename (tag_Close e filename)))
            (modify (fun d => set_statProcess (int_incr (statProcess d)) d) ;;
             emit (EPrintln ("* " ++ finalTitle ++ " " ++
                             "[" ++ strings_Join (opts ++ ["id3"])%list "+" ++ "]")))
      end
  end.

(** [worker]. *)
Definition worker (e : Env) (item : Item) : M unit :=
  defer waitGroup_Done
    match Enclosures item with
    | [] => panic "index out of range [0] with length 0"
    | enc :: _ =>
        if (String.length (Length enc) =? 0)%nat then ret tt
        else
          dl <- get ;;
          pt <- lift (parseTitle e dl item) ;;
          let prefix := fst pt in
          let title := snd pt in
          let finalTitle := "[" ++ prefix ++ "] " ++ title in
          let filename := mediaFile e dl prefix title in
          emit (EStat filename (os_Stat e filename)) ;;
          match os_Stat e filename with
          | StatNotExist =>
              err <- downloadFile e (URL enc) filename ;;
              match err with
              | Some msg =>
                  emit (ELog msg) ;;
                  modify (fun d => set_statFail (int_incr (statFail d)) d)
              | None => tagFile e item filename finalTitle ["dl"]
              end
          | _ => tagFile e item filename finalTitle []
          end
    end.

(** The closure of [Process] that downloads the cover. *)
Definition cover (e : Env) (feed : Feed) : M unit :=
  defer waitGroup_Done
    (dl <- get ;;
     let filename := downloadDir dl ++ ps e ++ "cover.png" in
     match FeedImage feed with
     | None => panic "invalid memory address or nil pointer dereference"
     | Some img =>
         err <- downloadFile e (ImageURL img) filename ;;
         log_if err ;;
         emit (EPrintln "* cover file") ;;
         modify (fun d => set_statProcess (int_incr (statProcess d)) d)
     end).

(* ------------------------------------------------------------------ *)
(** ** [Process]: the main goroutine and the goroutines it starts

    The feed is parsed already ([log.Fatal] on a parse error ends the
    program before anything is started).  The main goroutine is the list of
    its scheduling actions in program order. *)

Local Close Scope string_scope.

Inductive Task : Type :=
| TCover
| TWorker (i : nat) (item : Item).

Inductive Action : Type :=
| AAdd
| AGo (t : Task)
| AWait.

(** The [for _, item := range feed.Items] loop followed by the last
    [if counter > 0]; [i] is the index of the next item. *)
Fixpoint Process_loop (threads counter : Z) (i : nat) (items : list Item)
  : list Action :=
  match items with
  | [] => if 0 <? counter then [AWait] else []
  | item :: rest =>
      let counter := int_incr counter in
      AAdd :: AGo (TWorker i item) ::
        (if threads <=? counter
         then AWait :: Process_loop threads 0 (S i) rest
         else Process_loop threads counter (S i) rest)
  end.

Definition Process_main (threads : Z) (feed : Feed) : list Action :=
  AAdd :: AGo TCover :: Process_loop threads 0 0 (Items feed).

(** The batches of a program: the workers started between one [Wait] and
    the next.  The second component is what was started after the last
    [Wait]. *)
Fixpoint batches_from (cur : list Task) (p : list Action)
  : list (list Task) * list Task :=
  match p with
  | [] => ([], cur)
  | AWait :: m =>
      match batches_from [] m with
      | (bs, r) => (cur :: bs, r)
      end
  | AGo (TWorker i item) :: m => batches_from (cur ++ [TWorker i item]) m
  | _ :: m => batches_from cur m
  end.

Definition batches (p : list Action) : list (list Task) :=
  fst (batches_from [] p).

Definition unwaited (p : list Action) : list Task :=
  snd (batches_from [] p).

(** The worker of every item, in feed order. *)
Fixpoint workers_from (i : nat) (items : list Item) : list Task :=
  match items with
  | [] => []
  | item :: rest => TWorker i item :: workers_from (S i) rest
  end.

Definition run_task (env : Task -> Env) (feed : Feed) (t : Task) : M unit :=
  match t with
  | TCover => cover (env t) feed
  | TWorker _ item => worker (env t) item
  end.

(** The state of a run: what the main goroutine has still to do, the
    shared struct, the events so far, the goroutines started and not yet
    finished, the finished ones (latest first), and whether a goroutine
    has panicked. *)
Record Sched : Type := {
  main : list Action;
  shared : Glsdl;
  out : list Event;
  live : list Task;
  fin : list Task;
  crashed : bool
}.

Inductive Choice : Type :=
| RunMain
| RunTask (k : nat).

Definition remove_nth {A : Type} (k : nat) (l : list A) : list A :=
  (firstn k l ++ skipn (S k) l)%list.

Definition is_panic {A : Type} (o : Outcome A) : bool :=
  match o with
  | Panic _ => true
  | Ret _ => false
  end.

(** One step of the goroutine chosen.  [Wait] goes on only when the
    counter of the wait group is zero.  A goroutine runs from its start to
    its end in the step that finishes it: the increments of the counters
    are not interleaved. *)
Definition step (env : Task -> Env) (feed : Feed) (c : Choice) (s : Sched)
  : option Sched :=
  if crashed s then None
  else
    match c with
    | RunMain =>
        match main s with
        | [] => None
        | AAdd :: m =>
            Some {| main := m;
                    shared := set_waitGroup (waitGroup (shared s) + 1) (shared s);
                    out := out s; live := live s; fin := fin s;
                    crashed := false |}
        | AGo t :: m =>
            Some {| main := m; shared := shared s; out := out s;
                    live := (live s ++ [t])%list; fin := fin s;
                    crashed := false |}
        | AWait :: m =>
            if waitGroup (shared s) =? 0
            then Some {| main := m; shared := shared s; out := out s;
                         live := live s; fin := fin s; crashed := false |}
            else None
        end
    | RunTask k =>
        match nth_error (live s) k with
        | None => None
        | Some t =>
            match run_task env feed t (shared s) with
            | (r, d, ev) =>
                Some {| main := main s; shared := d;
                        out := (out s ++ ev)%list;
                        live := remove_nth k (live s);
                        fin := t :: fin s;
                        crashed := is_panic r |}
            end
        end
    end.

Fixpoint exec (env : Task -> Env) (feed : Feed) (cs : list Choice) (s : Sched)
  : option Sched :=
  match cs with
  | [] => Some s
  | c :: cs' =>
      match step env feed c s with
      | Some s' => exec env feed cs' s'
      | None => None
      end
  end.

(** [Process] is entered on a fresh struct. *)
Definition init (dl : Glsdl) (feed : Feed) : Sched :=
  {| main := Process_main (threads dl) feed; shared := dl; out := [];
     live := []; fin := []; crashed := false |}.

Definition reachable (env : Task -> Env) (dl : Glsdl) (feed : Feed)
  (s : Sched) : Prop :=
  exists cs, exec env feed cs (init dl feed) = Some s.

(** [Process] has returned and nothing has panicked. *)
Definition returned (s : Sched) : Prop := main s = [] /\ crashed s = false.

(* ------------------------------------------------------------------ *)
(** ** Vocabulary of the statements *)


Definition is_log (ev : Event) : bool :=
  match ev with
  | ELog _ => true
  | _ => false
  end.

(** An item whose first enclosure has an empty length: its worker returns
    at once. *)
Definition skipped (item : Item) : bool :=
  match Enclosures item with
  | enc :: _ => (String.length (Length enc) =? 0)%nat
  | [] => false
  end.

(** What a finished task adds to [statProcess + statFail]. *)
Definition counted (t : Task) : Z :=
  match t with
  | TCover => 1
  | TWorker _ item => if skipped item then 0 else 1
  end.

Definition is_worker (t : Task) : bool :=
  match t with
  | TWorker _ _ => true
  | TCover => false
  end.

(** The tasks a program starts, in order, and those it starts before its
    next [Wait]. *)
Fixpoint tasks_of (p : list Action) : list Task :=
  match p with
  | [] => []
  | AGo t :: m => t :: tasks_of m
  | _ :: m => tasks_of m
  end.

Fixpoint segment (p : list Action) : list Task :=
  match p with
  | [] => []
  | AWait :: _ => []
  | AGo t :: m => t :: segment m
  | AAdd :: m => segment m
  end.

Definition has_wait (p : list Action) : bool :=
  existsb (fun a => match a with AWait => true | _ => false end) p.

(** [Add(1)] not yet followed by its [go]. *)
Definition pending (p : list Action) : Z :=
  match p with
  | AGo _ :: _ => 1
  | _ => 0
  end.

(** Every [go] is announced by an [Add(1)] just before it. *)
Fixpoint paired (p : list Action) : Prop :=
  match p with
  | [] => True
  | AAdd :: AGo _ :: m => paired m
  | AWait :: m => paired m
  | _ => False
  end.

(** The batch an item index falls in. *)
Definition batch_index (threads : Z) (i : nat) : Z := Z.of_nat i / threads.

(* ------------------------------------------------------------------ *)
(** ** Sample data *)

Local Open Scope string_scope.

(** A Unix machine on which every call succeeds and every file is new. *)
Definition unix : Env :=
  {| PathSeparator := "/"%char;
     os_Stat := fun _ => StatNotExist;
     os_Create := fun _ => None;
     http_Get := fun _ => None;
     io_Copy := fun _ _ => None;
     file_Close := fun _ => None;
     body_Close := fun _ => None;
     id3_Open := fun _ => None;
     tag_Close := fun _ => None;
     time_Parse := fun _ => Some 2019 |}.


Definition with_id3_Open (r : option string) (e : Env) : Env :=
  {| PathSeparator := PathSeparator e; os_Stat := os_Stat e;
     os_Create := os_Create e; http_Get := http_Get e; io_Copy := io_Copy e;
     file_Close := file_Close e; body_Close := body_Close e;
     id3_Open := fun _ => r; tag_Close := tag_Close e;
     time_Parse := time_Parse e |}.

Definition with_tag_Close (r : option string) (e : Env) : Env :=
  {| PathSeparator := PathSeparator e; os_Stat := os_Stat e;
     os_Create := os_Create e; http_Get := http_Get e; io_Copy := io_Copy e;
     file_Close := file_Close e; body_Close := body_Close e;
     id3_Open := id3_Open e; tag_Close := fun _ => r;
     time_Parse := time_Parse e |}.

Definition with_http_Get (r : option string) (e : Env) : Env :=
  {| PathSeparator := PathSeparator e; os_Stat := os_Stat e;
     os_Create := os_Create e; http_Get := fun _ => r; io_Copy := io_Copy e;
     file_Close := file_Close e; body_Close := body_Close e;
     id3_Open := id3_Open e; tag_Close := tag_Close e;
     time_Parse := time_Parse e |}.


Definition jane : Person := {| Name := "Jane Doe" |}.

Definition episode (title : string) : Item :=
  {| Title := title;
     Published := "Mon, 02 Jan 2006 15:04:05 -0700";
     Author := Some jane;
     Enclosures := [ {| URL := "https://golangshow.com/cdn/episode.mp3";
                        Length := "54321" |} ] |}.

Definition sample_feed (items : list Item) : Feed :=
  {| FeedImage := Some {| ImageURL := "https://golangshow.com/cover.png" |};
     Items := items |}.

Definition sample_dl (threads : Z) : Glsdl := NewGlsdl unix "/home/gopher" threads.

Local Close Scope string_scope.

(* ------------------------------------------------------------------ *)
(** ** More vocabulary *)

(** The number of batches of [n] items, [threads] at a time. *)
Definition ceil_div (n threads : Z) : Z := (n + threads - 1) / threads.

(** The size of the last batch of [n >= 1] items. *)
Definition last_batch_size (n threads : Z) : Z :=
  if n mod threads =? 0 then threads else n mod threads.

(** [x++] done or not. *)
Definition bump (b : bool) (z : Z) : Z := if b then int_incr z else z.

(** What a list of finished tasks adds to [statProcess + statFail]. *)
Definition total_counted (l : list Task) : Z :=
  fold_right (fun t acc => counted t + acc) 0 l.

(** The items whose worker returns at the length gate. *)
Definition count_skipped (items : list Item) : Z :=
  Z.of_nat (List.length (filter skipped items)).

(** Every [go] has a [Wait] after it. *)
Fixpoint covered (p : list Action) : bool :=
  match p with
  | [] => true
  | AGo _ :: m => has_wait m && covered m
  | _ :: m => covered m
  end.

(** The main goroutine is between two statements, or between an [Add(1)]
    and its [go]. *)
Definition wf_main (p : list Action) : Prop :=
  paired p \/ exists t m, p = AGo t :: m /\ paired m.

Definition count_workers (l : list Task) : Z :=
  Z.of_nat (List.length (filter is_worker l)).

(** After every [Wait] at most [threads] workers are started before the
    next one. *)
Fixpoint segments_ok (threads : Z) (p : list Action) : Prop :=
  match p with
  | [] => True
  | AWait :: m => count_workers (segment m) <= threads /\ segments_ok threads m
  | _ :: m => segments_ok threads m
  end.

(** [t] is in a batch not later than the batch of [t']; the cover is in no
    batch. *)
Definition batch_le (threads : Z) (t t' : Task) : Prop :=
  match t, t' with
  | TWorker i _, TWorker j _ => batch_index threads i <= batch_index threads j
  | _, _ => True
  end.

(** Batches follow one another in the program, and what is started
    between two [Wait]s is in one batch. *)
Fixpoint batch_ordered (threads : Z) (p : list Action) : Prop :=
  match p with
  | [] => True
  | AGo t0 :: m =>
      (forall t, In t (tasks_of m) -> batch_le threads t0 t)
      /\ (forall t, In t (segment m) -> batch_le threads t t0)
      /\ batch_ordered threads m
  | _ :: m => batch_ordered threads m
  end.

(** A struct on which nothing has run yet. *)
Definition fresh (dl : Glsdl) : Prop :=
  waitGroup dl = 0 /\ statDl dl = 0 /\ statProcess dl = 0 /\ statFail dl = 0.

(** The counter of the wait group counts the goroutines started and not
    finished, and the [Add(1)] whose [go] is still to come. *)
Definition wg_inv (s : Sched) : Prop :=
  wf_main (main s)
  /\ waitGroup (shared s) = Z.of_nat (List.length (live s)) + pending (main s).

(** Every task is live, finished or still to start. *)
Definition tasks_inv (feed : Feed) (s : Sched) : Prop :=
  Permutation (live s ++ fin s ++ tasks_of (main s))%list
    (TCover :: workers_from 0 (Items feed)).

(** While a goroutine is live the main goroutine has a [Wait] ahead. *)
Definition covered_inv (s : Sched) : Prop :=
  covered (main s) = true /\ (live s = [] \/ has_wait (main s) = true).

(** The counters, while nothing has panicked. *)
Definition stats_inv (s : Sched) : Prop :=
  crashed s = false ->
  0 <= statDl (shared s)
  /\ 0 <= statProcess (shared s)
  /\ 0 <= statFail (shared s)
  /\ statProcess (shared s) + statFail (shared s) = total_counted (fin s)
  /\ statDl (shared s) <= statProcess (shared s) + statFail (shared s).

(** The live workers and those still to start before the next [Wait] are
    at most [threads]. *)
Definition width_inv (threads : Z) (s : Sched) : Prop :=
  count_workers (live s) + count_workers (segment (main s)) <= threads
  /\ segments_ok threads (main s).

(** Nothing started is in a later batch than anything unfinished. *)
Definition barrier_inv (threads : Z) (s : Sched) : Prop :=
  batch_ordered threads (main s)
  /\ (forall t' t, In t' (live s ++ fin s)%list ->
                   In t (live s ++ tasks_of (main s))%list ->
                   batch_le threads t' t)
  /\ (forall t t0, In t (live s) -> In t0 (segment (main s)) ->
                   batch_le threads t0 t).

(** Sample runs: the main goroutine starts everything, the goroutines
    finish in the order they were started, the main goroutine goes on. *)
Definition two_episodes : Feed :=
  sample_feed [episode "Episode 1. Hello"; episode "Episode 2. World"]%string.

Definition run_two_episodes : list Choice :=
  [RunMain; RunMain; RunMain; RunMain; RunMain; RunMain;
   RunTask 0; RunTask 0; RunTask 0; RunMain].

Definition one_episode : Feed := sample_feed [episode "Episode 1. Hello"%string].

(** The media file of the episode cannot be opened by the ID3 library. *)
Definition env_open_fails (t : Task) : Env :=
  match t with
  | TCover => unix
  | TWorker _ _ => with_id3_Open (Some "not an mp3 file"%string) unix
  end.

Definition run_one_episode : list Choice :=
  [RunMain; RunMain; RunMain; RunMain; RunTask 0; RunTask 0; RunMain].

(** A run stopped while the cover and the first episode are live. *)
Definition run_first_batch : list Choice := [RunMain; RunMain; RunMain; RunMain].

(** The four kinds of step. *)
Inductive step_kind (env : Task -> Env) (feed : Feed) (s s' : Sched) : Prop :=
| SAdd m :
    main s = AAdd :: m ->
    s' = {| main := m;
            shared := set_waitGroup (waitGroup (shared s) + 1) (shared s);
            out := out s; live := live s; fin := fin s; crashed := false |} ->
    step_kind env feed s s'
| SGo t m :
    main s = AGo t :: m ->
    s' = {| main := m; shared := shared s; out := out s;
            live := (live s ++ [t])%list; fin := fin s; crashed := false |} ->
    step_kind env feed s s'
| SWait m :
    main s = AWait :: m ->
    waitGroup (shared s) = 0 ->
    s' = {| main := m; shared := shared s; out := out s;
            live := live s; fin := fin s; crashed := false |} ->
    step_kind env feed s s'
| STask k t r d ev :
    nth_error (live s) k = Some t ->
    run_task env feed t (shared s) = (r, d, ev) ->
    s' = {| main := main s; shared := d; out := (out s ++ ev)%list;
            live := remove_nth k (live s); fin := t :: fin s;
            crashed := is_panic r |} ->
    step_kind env feed s s'.

(* ------------------------------------------------------------------ *)
(** ** Vocabulary of the further properties *)

Definition is_close_file (ev : Event) : bool :=
  match ev with
  | ECloseFile _ _ => true
  | _ => false
  end.

Definition is_close_body (ev : Event) : bool :=
  match ev with
  | ECloseBody _ _ => true
  | _ => false
  end.

(** A call of the ID3 library on an open tag. *)
(** The lines written by [log.Println], in the order they were written. *)
Definition logged (l : list Event) : list string :=
  flat_map (fun ev => match ev with ELog m => [m] | _ => [] end) l.

(** What [if err != nil { log.Println(err) }] writes. *)
Definition error_lines (err : option string) : list string :=
  match err with
  | Some m => [m]
  | None => []
  end.

(** Every event of [l] that satisfies [p] comes after one that satisfies
    [q]. *)
Definition only_after (p q : Event -> bool) (l : list Event) : Prop :=
  forall l1 x l2,
    l = (l1 ++ x :: l2)%list -> p x = true -> existsb q l1 = true.

(** No event of [l] that satisfies [p] comes after one that satisfies
    [q]. *)
Definition never_after (p q : Event -> bool) (l : list Event) : Prop :=
  forall l1 x l2,
    l = (l1 ++ x :: l2)%list -> p x = true -> existsb q l1 = false.

(** The two as checks along the list; [seen] says whether an event that
    satisfies [q] has gone by. *)
Fixpoint only_after_b (p q : Event -> bool) (seen : bool) (l : list Event)
  : bool :=
  match l with
  | [] => true
  | x :: l' => (negb (p x) || seen) && only_after_b p q (seen || q x) l'
  end.

Fixpoint never_after_b (p q : Event -> bool) (seen : bool) (l : list Event)
  : bool :=
  match l with
  | [] => true
  | x :: l' => (negb (p x) || negb seen) && never_after_b p q (seen || q x) l'
  end.

Definition is_tag_write (ev : Event) : bool :=
  match ev with
  | ESetTitle _ _ | ESetArtist _ _ | ESetAlbum _ _ | ESetGenre _ _
  | ESetYear _ _ | ETagClose _ _ => true
  | _ => false
  end.

Definition is_open (ev : Event) : bool :=
  match ev with
  | EId3Open _ _ => true
  | _ => false
  end.

Definition is_open_ok (ev : Event) : bool :=
  match ev with
  | EId3Open _ None => true
  | _ => false
  end.

(** A step of [downloadFile] that returned an error. *)
Definition is_failed_download (ev : Event) : bool :=
  match ev with
  | ECreate _ (Some _) | EHttpGet _ (Some _) | ECopy _ _ (Some _) => true
  | _ => false
  end.

Definition is_println (ev : Event) : bool :=
  match ev with
  | EPrintln _ => true
  | _ => false
  end.

Definition count_events (p : Event -> bool) (l : list Event) : Z :=
  Z.of_nat (List.length (filter p l)).

Definition is_close (ev : Event) : bool := is_close_file ev || is_close_body ev.

(** An [io.Copy] that returned [nil]. *)
Definition is_copy_ok (ev : Event) : bool :=
  match ev with
  | ECopy _ _ None => true
  | _ => false
  end.

(** The main goroutine alone moves [n] times. *)
Definition main_only (n : nat) : list Choice := repeat RunMain n.

(** Does the expression hold the capture group [i]? *)
Fixpoint has_cap (i : nat) (r : Regexp) : bool :=
  match r with
  | Concat a b => has_cap i a || has_cap i b
  | Star _ a | Plus _ a => has_cap i a
  | Capture j a => (i =? j)%nat || has_cap i a
  | _ => false
  end.

(** An ASCII letter or digit. *)
Definition is_alnum (a : ascii) : bool :=
  inClass (byteZ a) [(48, 57); (65, 90); (97, 122)].

Fixpoint all_bytes (p : ascii -> bool) (s : string) : bool :=
  match s with
  | EmptyString => true
  | String a s' => p a && all_bytes p s'
  end.

(** The last component of the path of a media file. *)
Definition mediaName (prefix title : string) : string :=
  (prefix ++ " - " ++ title ++ ".mp3")%string.

(** The continuation at the end of a search: the end offset and the
    captures. *)
Definition accept : Cont := fun p _ c => Some (p, c).

(** The pattern after its first capture group. *)
Definition glsRest : Regexp :=
  Seq [ Star true (CharClass [(46, 46)]);
        Star true class_space;
        Capture 2 (Star false AnyCharNotNL);
        EndText ].

(** A matcher takes a piece off the front of the input, moves the offset
    by its length, and leaves alone the capture groups it does not hold. *)
Definition frames (holds : nat -> bool) (m : Cont -> Cont) : Prop :=
  forall (k : Cont) pos s c res,
    m k pos s c = Some res ->
    exists u s' c',
      s = (u ++ s')%string
      /\ k (pos + String.length u)%nat s' c' = Some res
      /\ forall i, holds i = false -> lookup_cap i c' = lookup_cap i c.

(** [Report].  [spent] is [dl.statTime] as [%s] prints it; [%d] prints an
    [int] as [strconv.Itoa] does. *)
Definition Report (dl : Glsdl) (spent : string) : list string :=
  [ ("* " ++ strconv_Itoa (statDl dl) ++ " files were downloaded")%string;
    ("* " ++ strconv_Itoa (statProcess dl) ++ " files were processes")%string;
    ("* " ++ strconv_Itoa (statFail dl) ++ " files were failed")%string;
    ("* " ++ spent ++ " spent")%string ].

(* ================================================================== *)
(** * Theorems *)

(* ------------------------------------------------------------------ *)
(** ** Arithmetic of [int] *)

Lemma int_incr_small (z : Z) : MinInt <= z < MaxInt -> int_incr z = z + 1.
Proof.
  unfold int_incr, int_wrap, MinInt, MaxInt. intros H.
  rewrite Z.mod_small; lia.
Qed.

Lemma MaxInt_pos : 0 < MaxInt.
Proof. reflexivity. Qed.

(* ------------------------------------------------------------------ *)
(** ** [downloadFile] *)

Ltac run_monad :=
  unfold worker, cover, tagFile, downloadFile, log_if, waitGroup_Done,
    waitGroup_Add, defer, bind, ret, emit, get, modify, lift, panic;
  cbn [fst snd].

(** C7. [downloadFile] never panics.  It returns an error exactly when
    [os.Create], [http.Get] or [io.Copy] does, and the error is one of
    theirs.  When it returns [nil] the field [statDl] has been incremented
    once ([statDl + 1] below [MaxInt]); when it returns an error [statDl] is
    what it was; no other field changes.  The lines it logs are exactly the
    errors of the [Close] calls it made: that of the body, if the request
    was made and succeeded, then that of the file, if the file was created;
    neither is ever the error returned. *)
Theorem downloadFile_error_iff (e : Env) (url dest : string) (d : Glsdl) :
  exists (res : option string) (d' : Glsdl) (ev : list Event),
    downloadFile e url dest d = (Ret res, d', ev)
    /\ (res <> None <->
        os_Create e dest <> None \/ http_Get e url <> None
        \/ io_Copy e url dest <> None)
    /\ (forall m, res = Some m ->
          os_Create e dest = Some m \/ http_Get e url = Some m
          \/ io_Copy e url dest = Some m)
    /\ statDl d' = match res with
                   | None => int_incr (statDl d)
                   | Some _ => statDl d
                   end
    /\ (res = None -> MinInt <= statDl d < MaxInt ->
        statDl d' = statDl d + 1)
    /\ (threads d' = threads d /\ waitGroup d' = waitGroup d
        /\ parsePattern d' = parsePattern d /\ downloadDir d' = downloadDir d
        /\ statProcess d' = statProcess d /\ statFail d' = statFail d)
    /\ logged ev
       = match os_Create e dest with
         | Some _ => []
         | None =>
             (match http_Get e url with
              | Some _ => []
              | None => error_lines (body_Close e url)
              end ++ error_lines (file_Close e dest))%list
         end.
Proof.
  run_monad.
  destruct (os_Create e dest) as [c|], (http_Get e url) as [g|],
    (io_Copy e url dest) as [cp|], (file_Close e dest) as [fc|],
    (body_Close e url) as [bc|]; cbn;
    match goal with
    | |- exists res d' ev, (Ret ?r, ?x, ?l) = _ /\ _ => exists r, x, l
    end; (split; [reflexivity|]);
    (split; [ split; [ intros H; try (now elim H);
                       first [ left; discriminate | right; left; discriminate
                             | right; right; discriminate ]
                     | intros [H|[H|H]]; first [ now elim H | discriminate ] ]
            | ]);
    (split; [ intros m Hm; first [ discriminate Hm | injection Hm as <-; auto ]
            | ]);
    (split; [reflexivity|]);
    (split; [ intros Hr Hd; first [ discriminate Hr
                                  | cbn; now apply int_incr_small ]
            | ]);
    (split; [ cbn; repeat split | reflexivity ]).
Qed.

(* ------------------------------------------------------------------ *)
(** ** [worker] *)

Local Open Scope string_scope.

Ltac in_list := cbn; repeat first [ left; reflexivity | right ].

(** Entering [worker] on an item that passes the length gate and whose
    title parses. *)
Ltac enter_worker Henc Hlen Hparse :=
  run_monad; rewrite Henc;
  match goal with
  | |- context [Length ?enc] =>
      destruct (Length enc) eqn:?; [ now elim Hlen | ]
  end;
  cbn [String.length Nat.eqb]; rewrite Hparse; cbn [fst snd].

(** C9. The worker of an item without enclosures panics on
    [item.Enclosures[0]] before it does anything else: no event, no
    counter touched, only the deferred [Done] runs. *)
Theorem worker_needs_an_enclosure (e : Env) (item : Item) (d : Glsdl) :
  Enclosures item = [] ->
  exists msg,
    worker e item d = (Panic msg, set_waitGroup (waitGroup d - 1) d, []).
Proof.
  intros H. run_monad. rewrite H. cbn. eexists. reflexivity.
Qed.

Lemma worker_needs_an_enclosure_witness :
  exists msg,
    worker unix {| Title := "Episode 1. x"; Published := ""; Author := Some jane;
                   Enclosures := [] |} (sample_dl 4)
    = (Panic msg, set_waitGroup (waitGroup (sample_dl 4) - 1) (sample_dl 4), []).
Proof.
  apply (worker_needs_an_enclosure unix _ (sample_dl 4)). reflexivity.
Defined.





(** C6 as stated fails: an error of [tag.Close()] is dropped by the
    deferred closure.  Here the tag cannot be written; nothing is logged,
    [statFail] stays 0 and the item counts as processed. *)
Lemma worker_tag_close_error_dropped :
  exists d' ev,
    worker (with_tag_Close (Some "write failed") unix)
      (episode "Episode 12. Something Great") (sample_dl 4) = (Ret tt, d', ev)
    /\ In (ETagClose "/home/gopher/Music/Podcast/GolangShow/12 - Something Great.mp3"
             (Some "write failed")) ev
    /\ forallb (fun x => negb (is_log x)) ev = true
    /\ statFail d' = 0
    /\ statProcess d' = 1.
Proof.
  do 2 eexists. split; [vm_compute; reflexivity|].
  split; [in_list|]. repeat split.
Qed.

Ltac absurd_case :=
  exfalso; cbn in *;
  repeat match goal with
         | H : _ \/ _ |- _ => destruct H
         | H : _ /\ _ |- _ => destruct H
         | H : ?x <> ?x |- _ => now elim H
         | H : _ = _ |- _ => discriminate H
         end;
  fail.

(** C6, amended.  For an item that passes the length gate and whose title
    parses: when the download or [id3.Open] returns an error, the worker
    logs it, increments [statFail] once, leaves [statProcess] alone, signals
    the wait group and returns; when neither fails, the result of
    [tag.Close()] is dropped, whatever it is: [statFail] is unchanged, the
    item counts as processed and the only lines logged are close errors of
    [downloadFile].  [worker] has no result, so no error reaches
    [Process]. *)
Theorem worker_failure_stays_local (e : Env) (item : Item) (d : Glsdl)
  (enc : Enclosure) (rest : list Enclosure) (prefix title : string) :
  Enclosures item = enc :: rest ->
  Length enc <> "" ->
  parseTitle e d item = Ret (prefix, title) ->
  (forall err,
      (os_Stat e (mediaFile e d prefix title) = StatNotExist
       /\ fst (fst (downloadFile e (URL enc) (mediaFile e d prefix title) d))
          = Ret (Some err))
      \/ ((os_Stat e (mediaFile e d prefix title) <> StatNotExist
           \/ fst (fst (downloadFile e (URL enc) (mediaFile e d prefix title) d))
              = Ret None)
          /\ id3_Open e (mediaFile e d prefix title) = Some err) ->
      exists d' ev,
        worker e item d = (Ret tt, d', ev)
        /\ In (ELog err) ev
        /\ statFail d' = int_incr (statFail d)
        /\ statProcess d' = statProcess d
        /\ waitGroup d' = waitGroup d - 1)
  /\ (forall a,
        Author item = Some a ->
        os_Stat e (mediaFile e d prefix title) <> StatNotExist
        \/ fst (fst (downloadFile e (URL enc) (mediaFile e d prefix title) d))
           = Ret None ->
        id3_Open e (mediaFile e d prefix title) = None ->
        exists d' ev,
          worker e item d = (Ret tt, d', ev)
          /\ In (ETagClose (mediaFile e d prefix title)
                   (tag_Close e (mediaFile e d prefix title))) ev
          /\ statFail d' = statFail d
          /\ statProcess d' = int_incr (statProcess d)
          /\ waitGroup d' = waitGroup d - 1
          /\ (forall m, In (ELog m) ev ->
                file_Close e (mediaFile e d prefix title) = Some m
                \/ body_Close e (URL enc) = Some m)).
Proof.
  intros Henc Hlen Hparse.
  enter_worker Henc Hlen Hparse.
  set (f := mediaFile e d prefix title).
  assert (Hsub : forall z, z + -1 = z - 1) by (intros; lia).
  destruct (os_Stat e f) eqn:Hs;
    [ | destruct (os_Create e f) as [c|], (http_Get e (URL enc)) as [g|],
          (io_Copy e (URL enc) f) as [cp|], (file_Close e f) as [fc|],
          (body_Close e (URL enc)) as [bc|] | ];
    (split;
     [ intros err H; destruct (id3_Open e f) as [oe|] eqn:Ho;
       first
         [ absurd_case
         | cbn; do 2 eexists; (split; [reflexivity|]); cbn;
           repeat split; auto using Hsub;
           cbn in H;
           repeat match goal with
                  | H : _ \/ _ |- _ => destruct H
                  | H : _ /\ _ |- _ => destruct H
                  | H : ?x <> ?x |- _ => now elim H
                  | H : Some _ = Some _ |- _ => injection H as H; subst
                  | H : Ret _ = Ret _ |- _ => injection H as H; subst
                  | H : _ = _ |- _ => discriminate H
                  end; auto 20 ]
     | intros au Ha H Ho; rewrite ?Ha, ?Ho;
       first
         [ absurd_case
         | cbn; do 2 eexists; (split; [reflexivity|]); cbn;
           repeat split; auto 20 using Hsub;
           intros m Hm; intuition (try discriminate; try congruence) ] ]).
Qed.

Lemma worker_failure_stays_local_witness :
  exists d' ev,
    worker (with_http_Get (Some "connection refused") unix)
      (episode "Episode 12. Something Great") (sample_dl 4) = (Ret tt, d', ev)
    /\ In (ELog "connection refused") ev
    /\ statFail d' = 1
    /\ statProcess d' = 0.
Proof.
  destruct (proj1 (worker_failure_stays_local
                     (with_http_Get (Some "connection refused") unix)
                     (episode "Episode 12. Something Great") (sample_dl 4)
                     _ [] "12" "Something Great" eq_refl
                     ltac:(discriminate) eq_refl)
              "connection refused")
    as (d' & ev & H1 & H2 & H3 & H4 & _).
  - left. split; reflexivity.
  - exists d', ev. repeat split; assumption.
Defined.

(* ------------------------------------------------------------------ *)
(** ** [parseTitle] *)

Lemma FindStringSubmatch_shape (re : Regexp) (s : string) :
  FindStringSubmatch re s = []
  \/ List.length (FindStringSubmatch re s) = S (NumSubexp re).
Proof.
  unfold FindStringSubmatch.
  destruct (search re (String.length s) 0 s) as [[[b e'] c]|]; [right|left; reflexivity].
  cbn. now rewrite length_map, length_seq.
Qed.


Lemma contains_byte_append (c : ascii) (a b : string) :
  contains_byte c (a ++ b) = contains_byte c a || contains_byte c b.
Proof.
  induction a as [|x a IH]; cbn; [reflexivity|].
  now rewrite IH, orb_assoc.
Qed.

Lemma strings_Replace_clean (s : string) (old : ascii) (new : string) :
  contains_byte old new = false ->
  contains_byte old (strings_Replace s old new) = false.
Proof.
  intros Hnew. induction s as [|a s IH]; cbn; [reflexivity|].
  destruct (Ascii.eqb a old) eqn:E.
  - now rewrite contains_byte_append, Hnew, IH.
  - cbn. now rewrite E, IH.
Qed.

(** X2. On the path where the pattern matches, the title is free of the path
    separator. *)
Lemma parseTitle_matched_title_clean (e : Env) (dl : Glsdl) (item : Item)
  (prefix title : string) :
  PathSeparator e <> "_"%char ->
  FindStringSubmatch (parsePattern dl) (Title item) <> [] ->
  parseTitle e dl item = Ret (prefix, title) ->
  contains_byte (PathSeparator e) title = false.
Proof.
  intros Hps Hm. unfold parseTitle.
  destruct (FindStringSubmatch (parsePattern dl) (Title item))
    as [|w [|p [|t l]]]; [now elim Hm| | |]; cbn; try discriminate.
  assert (Hc : contains_byte (PathSeparator e) "_" = false).
  { unfold contains_byte. rewrite orb_false_r.
    apply Ascii.eqb_neq. congruence. }
  destruct (String.length t =? 0)%nat.
  - destruct (Author item); [|discriminate].
    intros H. injection H as _ <-. now apply strings_Replace_clean.
  - intros H. injection H as _ <-. now apply strings_Replace_clean.
Qed.

Lemma match_episode_12 :
  FindStringSubmatch glsPattern "Episode 12. Something Great"
  = ["Episode 12. Something Great"; "12"; "Something Great"].
Proof. vm_compute. reflexivity. Qed.

Lemma match_NoMatchHere : FindStringSubmatch glsPattern "NoMatchHere" = [].
Proof. vm_compute. reflexivity. Qed.

Lemma match_episode_5 :
  FindStringSubmatch glsPattern "Episode 5." = ["Episode 5."; "5"; ""].
Proof. vm_compute. reflexivity. Qed.

Lemma match_episode_7 :
  FindStringSubmatch glsPattern "Episode 7. A/B" = ["Episode 7. A/B"; "7"; "A/B"].
Proof. vm_compute. reflexivity. Qed.

Lemma match_A_B : FindStringSubmatch glsPattern "A/B" = [].
Proof. vm_compute. reflexivity. Qed.

(** C8. On a machine whose path separator is the slash, [parseTitle] with
    the pattern of [NewGlsdl] gives the three vectors of the claim, and it
    replaces the separator in a title the pattern matches; but a title the
    pattern does not match is returned as it is, separator included:
    ["A/B"] stays ["A/B"]. *)
Theorem parseTitle_unmatched_keeps_separator (e : Env) (home : string)
  (threads : Z) (pub : string) (author : option Person)
  (encs : list Enclosure) :
  PathSeparator e = "/"%char ->
  parseTitle e (NewGlsdl e home threads)
    {| Title := "Episode 12. Something Great"; Published := pub;
       Author := author; Enclosures := encs |}
  = Ret ("12", "Something Great")
  /\ parseTitle e (NewGlsdl e home threads)
       {| Title := "NoMatchHere"; Published := pub;
          Author := author; Enclosures := encs |}
     = Ret ("", "NoMatchHere")
  /\ parseTitle e (NewGlsdl e home threads)
       {| Title := "Episode 5."; Published := pub;
          Author := Some {| Name := "Jane Doe" |}; Enclosures := encs |}
     = Ret ("5", "Jane Doe")
  /\ parseTitle e (NewGlsdl e home threads)
       {| Title := "Episode 7. A/B"; Published := pub;
          Author := author; Enclosures := encs |}
     = Ret ("7", "A_B")
  /\ parseTitle e (NewGlsdl e home threads)
       {| Title := "A/B"; Published := pub;
          Author := author; Enclosures := encs |}
     = Ret ("", "A/B").
Proof.
  intros Hps. unfold parseTitle.
  cbn [parsePattern NewGlsdl Title Author Name].
  rewrite match_episode_12, match_NoMatchHere, match_episode_5,
    match_episode_7, match_A_B, Hps.
  repeat split; reflexivity.
Qed.

Lemma parseTitle_unmatched_keeps_separator_witness :
  parseTitle unix (sample_dl 4) (episode "A/B") = Ret ("", "A/B").
Proof.
  exact (proj2 (proj2 (proj2 (proj2
    (parseTitle_unmatched_keeps_separator unix "/home/gopher" 4
       "Mon, 02 Jan 2006 15:04:05 -0700" (Some jane)
       [ {| URL := "https://golangshow.com/cdn/episode.mp3";
            Length := "54321" |} ] eq_refl))))).
Defined.

Local Close Scope string_scope.

(* ------------------------------------------------------------------ *)
(** ** The batches of [Process] *)

Lemma ceil_div_spec (n t : Z) :
  0 < t -> t * (ceil_div n t - 1) < n <= t * ceil_div n t.
Proof.
  intros Ht. unfold ceil_div.
  pose proof (Z.div_mod (n + t - 1) t ltac:(lia)).
  pose proof (Z.mod_pos_bound (n + t - 1) t Ht). lia.
Qed.

Lemma last_batch_size_eq (n t : Z) :
  0 < t -> 1 <= n -> (n - 1) mod t + 1 = last_batch_size n t.
Proof.
  intros Ht Hn. unfold last_batch_size.
  pose proof (Z.div_mod n t ltac:(lia)) as Hdm.
  pose proof (Z.mod_pos_bound n t Ht) as Hb.
  destruct (Z.eqb_spec (n mod t) 0) as [E|E].
  - replace (n - 1) with ((t - 1) + (n / t - 1) * t) by lia.
    rewrite Z.mod_add by lia. rewrite Z.mod_small; lia.
  - replace (n - 1) with ((n mod t - 1) + (n / t) * t) by lia.
    rewrite Z.mod_add by lia. rewrite Z.mod_small; lia.
Qed.

Lemma batches_from_loop (t : Z) (items : list Item) :
  1 <= t <= MaxInt ->
  forall (c : Z) (n : nat) (cur : list Task) bs r,
    0 <= c < t ->
    Z.of_nat (List.length cur) = c ->
    batches_from cur (Process_loop t c n items) = (bs, r) ->
    r = []
    /\ List.concat bs = (cur ++ workers_from n items)%list
    /\ Z.of_nat (List.length bs) = ceil_div (c + Z.of_nat (List.length items)) t
    /\ forall k b, nth_error bs k = Some b ->
         Z.of_nat (List.length b) =
           if (S k =? List.length bs)%nat
           then (c + Z.of_nat (List.length items) - 1) mod t + 1
           else t.
Proof.
  intros Ht. unfold ceil_div.
  induction items as [|item rest IH]; intros c n cur bs r Hc Hcur.
  - cbn [Process_loop List.length Z.of_nat]. rewrite Z.add_0_r.
    destruct (Z.ltb_spec 0 c) as [Hpos|Hzero]; cbn; intros H;
      injection H as <- <-.
    + refine (conj _ (conj _ (conj _ _))).
      * reflexivity.
      * reflexivity.
      * cbn. apply Z.div_unique with (r := c - 1); lia.
      * intros [|k] b Hb; cbn in Hb; [|now destruct k].
        injection Hb as <-. cbn. rewrite Z.mod_small; lia.
    + assert (cur = []) by (destruct cur; [reflexivity | cbn in Hcur; lia]).
      subst cur. refine (conj _ (conj _ (conj _ _))).
      * reflexivity.
      * reflexivity.
      * cbn. symmetry. apply Z.div_small. lia.
      * intros [|k] b Hb; discriminate Hb.
  - cbn [Process_loop batches_from].
    rewrite int_incr_small by (unfold MinInt; lia).
    assert (Hlen : Z.of_nat (List.length (item :: rest)) = Z.of_nat (List.length rest) + 1)
      by (cbn [List.length]; lia).
    rewrite Hlen.
    destruct (Z.leb_spec t (c + 1)) as [Hfull|Hroom].
    + cbn [batches_from].
      destruct (batches_from [] (Process_loop t 0 (S n) rest)) as [bs' r'] eqn:E.
      intros H; injection H as <- <-.
      destruct (IH 0 (S n) [] bs' r' ltac:(lia) eq_refl E)
        as (Hr & Hcat & Hnum & Hsz).
      assert (c + 1 = t) by lia.
      refine (conj _ (conj _ (conj _ _))).
      * exact Hr.
      * cbn [List.concat]. rewrite Hcat. cbn. now rewrite <- app_assoc.
      * cbn [List.length]. rewrite Nat2Z.inj_succ, Hnum.
        replace (c + (Z.of_nat (List.length rest) + 1) + t - 1)
          with (0 + Z.of_nat (List.length rest) + t - 1 + 1 * t) by lia.
        rewrite Z.div_add by lia. lia.
      * intros [|k] b Hb; cbn in Hb.
        -- injection Hb as <-. rewrite length_app. cbn [List.length Nat.eqb].
           destruct (List.length bs') as [|m] eqn:Hz; [|lia].
           change (Z.of_nat 0) with 0 in Hnum.
           assert (List.length rest = 0%nat).
           { pose proof (Z.div_mod (0 + Z.of_nat (List.length rest) + t - 1) t
                           ltac:(lia)) as Hdm.
             pose proof (Z.mod_pos_bound (0 + Z.of_nat (List.length rest) + t - 1) t
                           ltac:(lia)).
             rewrite <- Hnum in Hdm. lia. }
           replace (c + (Z.of_nat (List.length rest) + 1) - 1) with (t - 1) by lia.
           rewrite Z.mod_small; lia.
        -- rewrite (Hsz k b Hb).
           match goal with
           | |- context [(S (S k) =? ?l)%nat] =>
               change ((S (S k) =? l)%nat) with ((S k =? List.length bs')%nat)
           end.
           destruct (S k =? List.length bs')%nat; [|reflexivity].
           replace (c + (Z.of_nat (List.length rest) + 1) - 1)
             with (0 + Z.of_nat (List.length rest) - 1 + 1 * t) by lia.
           now rewrite Z.mod_add by lia.
    + intros H.
      destruct (IH (c + 1) (S n) (cur ++ [TWorker n item])%list bs r
                  ltac:(lia)
                  ltac:(rewrite length_app; cbn [List.length]; lia) H)
        as (Hr & Hcat & Hnum & Hsz).
      refine (conj _ (conj _ (conj _ _))).
      * exact Hr.
      * rewrite Hcat, <- app_assoc. reflexivity.
      * rewrite Hnum. f_equal. lia.
      * intros k b Hb. rewrite (Hsz k b Hb).
        replace (c + 1 + Z.of_nat (List.length rest) - 1)
          with (c + (Z.of_nat (List.length rest) + 1) - 1) by lia.
        reflexivity.
Qed.

(** C1. For [1 <= threads] the program of [Process] waits after every
    worker it started; its batches, put end to end, are the workers of the
    feed items in feed order; there are [ceil(N/threads)] of them; every
    batch but the last holds [threads] workers and the last holds
    [N mod threads], or [threads] when that is zero. *)
Theorem Process_batches (t : Z) (feed : Feed) :
  1 <= t <= MaxInt ->
  unwaited (Process_main t feed) = []
  /\ List.concat (batches (Process_main t feed)) = workers_from 0 (Items feed)
  /\ Z.of_nat (List.length (batches (Process_main t feed)))
     = ceil_div (Z.of_nat (List.length (Items feed))) t
  /\ forall k b,
       nth_error (batches (Process_main t feed)) k = Some b ->
       Z.of_nat (List.length b) =
         if (S k =? List.length (batches (Process_main t feed)))%nat
         then last_batch_size (Z.of_nat (List.length (Items feed))) t
         else t.
Proof.
  intros Ht. unfold unwaited, batches, Process_main.
  cbn [batches_from].
  destruct (batches_from [] (Process_loop t 0 0 (Items feed))) as [bs r] eqn:E.
  destruct (batches_from_loop t (Items feed) Ht 0 0%nat [] bs r
              ltac:(lia) eq_refl E) as (Hr & Hcat & Hnum & Hsz).
  cbn [fst snd]. rewrite Z.add_0_l in *. repeat split; auto.
  intros k b Hb. rewrite (Hsz k b Hb).
  destruct (S k =? List.length bs)%nat; [|reflexivity].
  apply last_batch_size_eq; [lia|].
  assert (Hk : (k < List.length bs)%nat) by (apply nth_error_Some; congruence).
  pose proof (ceil_div_spec (Z.of_nat (List.length (Items feed))) t ltac:(lia)).
  nia.
Qed.

Lemma Process_batches_witness :
  Z.of_nat (List.length (batches (Process_main 2
      (sample_feed [episode "Episode 1. a"; episode "Episode 2. b";
                    episode "Episode 3. c"]%string)))) = 2.
Proof.
  exact (proj1 (proj2 (proj2
    (Process_batches 2
       (sample_feed [episode "Episode 1. a"; episode "Episode 2. b";
                     episode "Episode 3. c"]%string)
       ltac:(unfold MaxInt; lia))))).
Defined.

(* ------------------------------------------------------------------ *)
(** ** What a goroutine does to the struct *)

Lemma tagFile_effect (e : Env) (item : Item) (f ft : string)
  (opts : list string) (d : Glsdl) r d' ev :
  tagFile e item f ft opts d = (r, d', ev) ->
  waitGroup d' = waitGroup d
  /\ statDl d' = statDl d
  /\ (r = Ret tt ->
      exists bp bf,
        statProcess d' = bump bp (statProcess d)
        /\ statFail d' = bump bf (statFail d)
        /\ Z.b2z bp + Z.b2z bf = 1).
Proof.
  run_monad.
  destruct (id3_Open e f), (Author item); cbn; intros H;
    injection H as <- <- <-; cbn; repeat split;
    try discriminate; intros _;
    first [ exists true, false; now cbn | exists false, true; now cbn ].
Qed.

Lemma downloadFile_effect (e : Env) (url dest : string) (d : Glsdl) r d' ev :
  downloadFile e url dest d = (r, d', ev) ->
  waitGroup d' = waitGroup d
  /\ statProcess d' = statProcess d
  /\ statFail d' = statFail d
  /\ exists res bd, r = Ret res /\ statDl d' = bump bd (statDl d).
Proof.
  run_monad.
  destruct (os_Create e dest) as [c|], (http_Get e url) as [g|],
    (io_Copy e url dest) as [cp|], (file_Close e dest) as [fc|],
    (body_Close e url) as [bc|]; cbn;
    intros E; injection E as <- <- <-; cbn; repeat split;
    first [ eexists; exists false; split; reflexivity
          | eexists; exists true; split; reflexivity ].
Qed.

Lemma worker_effect (e : Env) (item : Item) (d : Glsdl) r d' ev :
  worker e item d = (r, d', ev) ->
  waitGroup d' = waitGroup d - 1
  /\ (r = Ret tt ->
      exists bp bf bd,
        statProcess d' = bump bp (statProcess d)
        /\ statFail d' = bump bf (statFail d)
        /\ statDl d' = bump bd (statDl d)
        /\ Z.b2z bp + Z.b2z bf = (if skipped item then 0 else 1)
        /\ Z.b2z bd <= (if skipped item then 0 else 1)).
Proof.
  unfold worker, skipped.
  destruct (Enclosures item) as [|enc rest].
  { unfold defer, panic, waitGroup_Done, waitGroup_Add, modify. cbn.
    intros H. injection H as <- <- <-. cbn. split; [lia|discriminate]. }
  destruct (String.length (Length enc) =? 0)%nat.
  { unfold defer, ret, waitGroup_Done, waitGroup_Add, modify. cbn.
    intros H. injection H as <- <- <-. cbn. split; [lia|].
    intros _. exists false, false, false. now cbn. }
  unfold defer at 1, bind at 1, get, bind at 1, lift.
  destruct (parseTitle e d item) as [[prefix title]|msg]; cbn [fst snd].
  2:{ unfold waitGroup_Done, waitGroup_Add, modify. cbn.
      intros H. injection H as <- <- <-. cbn. split; [lia|discriminate]. }
  set (f := mediaFile e d prefix title).
  set (ft := ("[" ++ prefix ++ "] " ++ title)%string).
  unfold bind at 1, emit at 1.
  assert (Htag : forall opts r0 d0 ev0,
             tagFile e item f ft opts d = (r0, d0, ev0) ->
             waitGroup d0 = waitGroup d /\
             (r0 = Ret tt ->
              exists bp bf bd,
                statProcess d0 = bump bp (statProcess d)
                /\ statFail d0 = bump bf (statFail d)
                /\ statDl d0 = bump bd (statDl d)
                /\ Z.b2z bp + Z.b2z bf = 1 /\ Z.b2z bd <= 1)).
  { intros opts r0 d0 ev0 H0.
    destruct (tagFile_effect _ _ _ _ _ _ _ _ _ H0) as (Hw & Hd & Hr).
    split; [exact Hw|]. intros Hret.
    destruct (Hr Hret) as (bp & bf & Hp & Hf & Hs).
    exists bp, bf, false. cbn. repeat split; auto; lia. }
  destruct (os_Stat e f).
  - destruct (tagFile e item f ft [] d) as [[r0 d0] ev0] eqn:E.
    destruct (Htag _ _ _ _ E) as (Hw & Hr).
    unfold waitGroup_Done, waitGroup_Add, modify. cbn.
    intros H. injection H as <- <- <-. cbn. split; [lia|exact Hr].
  - unfold bind at 1.
    destruct (downloadFile e (URL enc) f d) as [[r1 d1] ev1] eqn:E1.
    destruct (downloadFile_effect _ _ _ _ _ _ _ E1)
      as (Hw1 & Hp1 & Hf1 & res & bd & -> & Hd1).
    destruct res as [err|].
    + unfold bind, emit, modify, waitGroup_Done, waitGroup_Add. cbn.
      intros H. injection H as <- <- <-. cbn. split; [lia|].
      intros _. exists false, true, bd. cbn.
      repeat split; auto; try congruence. destruct bd; cbn; lia.
    + destruct (tagFile e item f ft ["dl"%string] d1) as [[r0 d0] ev0] eqn:E.
      destruct (tagFile_effect _ _ _ _ _ _ _ _ _ E) as (Hw & Hd & Hr).
      unfold waitGroup_Done, waitGroup_Add, modify. cbn.
      intros H. injection H as <- <- <-. cbn. split; [lia|].
      intros Hret. destruct (Hr Hret) as (bp & bf & Hp & Hf & Hs).
      exists bp, bf, bd. repeat split; try congruence.
      destruct bd; cbn; lia.
  - destruct (tagFile e item f ft [] d) as [[r0 d0] ev0] eqn:E.
    destruct (Htag _ _ _ _ E) as (Hw & Hr).
    unfold waitGroup_Done, waitGroup_Add, modify. cbn.
    intros H. injection H as <- <- <-. cbn. split; [lia|exact Hr].
Qed.

Lemma cover_effect (e : Env) (feed : Feed) (d : Glsdl) r d' ev :
  cover e feed d = (r, d', ev) ->
  waitGroup d' = waitGroup d - 1
  /\ (r = Ret tt ->
      exists bd,
        statProcess d' = int_incr (statProcess d)
        /\ statFail d' = statFail d
        /\ statDl d' = bump bd (statDl d)).
Proof.
  unfold cover, defer at 1, bind at 1, get. cbn [fst snd].
  destruct (FeedImage feed) as [img|].
  2:{ unfold panic, waitGroup_Done, waitGroup_Add, modify. cbn.
      intros H. injection H as <- <- <-. cbn. split; [lia|discriminate]. }
  unfold bind at 1.
  destruct (downloadFile e (ImageURL img) _ d) as [[r1 d1] ev1] eqn:E1.
  destruct (downloadFile_effect _ _ _ _ _ _ _ E1)
    as (Hw1 & Hp1 & Hf1 & res & bd & -> & Hd1).
  unfold log_if, bind, emit, ret, modify, waitGroup_Done, waitGroup_Add.
  destruct res; cbn; intros H; injection H as <- <- <-; cbn;
    (split; [lia|]); intros _; exists bd; repeat split; congruence.
Qed.

Lemma run_task_effect (env : Task -> Env) (feed : Feed) (t : Task)
  (d : Glsdl) r d' ev :
  run_task env feed t d = (r, d', ev) ->
  waitGroup d' = waitGroup d - 1
  /\ (r = Ret tt ->
      exists bp bf bd,
        statProcess d' = bump bp (statProcess d)
        /\ statFail d' = bump bf (statFail d)
        /\ statDl d' = bump bd (statDl d)
        /\ Z.b2z bp + Z.b2z bf = counted t
        /\ Z.b2z bd <= counted t).
Proof.
  destruct t as [|i item]; cbn [run_task counted]; intros H.
  - destruct (cover_effect _ _ _ _ _ _ H) as (Hw & Hr).
    split; [exact Hw|]. intros Hret.
    destruct (Hr Hret) as (bd & Hp & Hf & Hd).
    exists true, false, bd. cbn. repeat split; auto. destruct bd; cbn; lia.
  - now apply worker_effect in H.
Qed.

(* ------------------------------------------------------------------ *)
(** ** Runs of the scheduler *)

Lemma step_inv (env : Task -> Env) (feed : Feed) (c : Choice) (s s' : Sched) :
  step env feed c s = Some s' ->
  crashed s = false /\ step_kind env feed s s'.
Proof.
  unfold step. destruct (crashed s); [discriminate|].
  intros H. split; [reflexivity|].
  destruct c as [|k].
  - destruct (main s) as [|[| t |] m] eqn:Hm; try discriminate.
    + injection H as <-. eapply SAdd; eauto.
    + injection H as <-. eapply SGo; eauto.
    + destruct (Z.eqb_spec (waitGroup (shared s)) 0); [|discriminate].
      injection H as <-. eapply SWait; eauto.
  - destruct (nth_error (live s) k) as [t|] eqn:Hk; [|discriminate].
    destruct (run_task env feed t (shared s)) as [[r d] ev] eqn:Hr.
    injection H as <-. eapply STask; eauto.
Qed.

(** Induction over the states a run reaches. *)
Lemma reachable_ind (env : Task -> Env) (dl : Glsdl) (feed : Feed)
  (P : Sched -> Prop) :
  P (init dl feed) ->
  (forall s s', P s -> crashed s = false -> step_kind env feed s s' -> P s') ->
  forall s, reachable env dl feed s -> P s.
Proof.
  intros H0 Hstep s [cs Hcs]. revert Hcs.
  generalize (init dl feed) H0. clear H0.
  induction cs as [|c cs IH]; intros s0 H0; cbn.
  - intros H. now injection H as <-.
  - destruct (step env feed c s0) as [s1|] eqn:E; [|discriminate].
    apply step_inv in E as [Hc Hk]. apply IH. eauto.
Qed.

Lemma exec_reachable (env : Task -> Env) (dl : Glsdl) (feed : Feed)
  (cs : list Choice) (s : Sched) :
  exec env feed cs (init dl feed) = Some s -> reachable env dl feed s.
Proof. intros H. now exists cs. Qed.

(* ------------------------------------------------------------------ *)
(** ** Lists *)

Lemma remove_nth_perm {A : Type} (k : nat) (l : list A) (t : A) :
  nth_error l k = Some t -> Permutation l (t :: remove_nth k l).
Proof.
  unfold remove_nth. revert l. induction k as [|k IH]; intros [|a l] H;
    try discriminate.
  - injection H as ->. reflexivity.
  - cbn. cbn in H. eapply Permutation_trans; [|apply perm_swap].
    constructor. now apply IH.
Qed.

Lemma remove_nth_length {A : Type} (k : nat) (l : list A) (t : A) :
  nth_error l k = Some t -> List.length l = S (List.length (remove_nth k l)).
Proof.
  intros H. apply remove_nth_perm in H.
  now rewrite (Permutation_length H).
Qed.

Lemma remove_nth_In {A : Type} (k : nat) (l : list A) (x : A) :
  In x (remove_nth k l) -> In x l.
Proof.
  unfold remove_nth. intros H. apply in_app_or in H as [H|H].
  - rewrite <- (firstn_skipn k l). apply in_or_app. now left.
  - rewrite <- (firstn_skipn (S k) l). apply in_or_app. now right.
Qed.

Lemma count_workers_app (l l' : list Task) :
  count_workers (l ++ l') = count_workers l + count_workers l'.
Proof.
  unfold count_workers. rewrite filter_app, length_app. lia.
Qed.

Lemma count_workers_perm (l l' : list Task) :
  Permutation l l' -> count_workers l = count_workers l'.
Proof.
  intros H. unfold count_workers.
  induction H; cbn; try destruct (is_worker x); try destruct (is_worker y);
    cbn; lia.
Qed.

Lemma count_workers_nonneg (l : list Task) : 0 <= count_workers l.
Proof. unfold count_workers. lia. Qed.

Lemma total_counted_perm (l l' : list Task) :
  Permutation l l' -> total_counted l = total_counted l'.
Proof.
  intros H. unfold total_counted. induction H; cbn; lia.
Qed.

Lemma counted_range (t : Task) : 0 <= counted t <= 1.
Proof. destruct t; cbn; [lia|]. destruct (skipped item); lia. Qed.

Lemma total_counted_range (l : list Task) :
  0 <= total_counted l <= Z.of_nat (List.length l).
Proof.
  induction l as [|t l IH]; cbn [total_counted fold_right List.length].
  - lia.
  - pose proof (counted_range t). fold (total_counted l). lia.
Qed.

Lemma total_counted_workers (n : nat) (items : list Item) :
  total_counted (workers_from n items)
  = Z.of_nat (List.length items) - count_skipped items.
Proof.
  unfold count_skipped. revert n.
  induction items as [|item rest IH]; intros n; cbn [workers_from]; [reflexivity|].
  cbn [total_counted fold_right counted filter List.length].
  fold (total_counted (workers_from (S n) rest)). rewrite IH.
  destruct (skipped item); cbn [List.length]; lia.
Qed.

(* ------------------------------------------------------------------ *)
(** ** The program of [Process] *)

Lemma tasks_of_loop (t c : Z) (n : nat) (items : list Item) :
  tasks_of (Process_loop t c n items) = workers_from n items.
Proof.
  revert c n. induction items as [|item rest IH]; intros c n; cbn.
  - now destruct (0 <? c).
  - destruct (t <=? int_incr c); cbn; now rewrite IH.
Qed.

Lemma paired_loop (t c : Z) (n : nat) (items : list Item) :
  paired (Process_loop t c n items).
Proof.
  revert c n. induction items as [|item rest IH]; intros c n; cbn.
  - now destruct (0 <? c).
  - destruct (t <=? int_incr c); cbn; apply IH.
Qed.

Lemma paired_pending (p : list Action) : paired p -> pending p = 0.
Proof. destruct p as [|[| |] p]; cbn; tauto. Qed.

Lemma workers_from_In (i : nat) (item : Item) (items : list Item) (n : nat) :
  In (TWorker i item) (workers_from n items)
  <-> (n <= i)%nat /\ nth_error items (i - n) = Some item.
Proof.
  revert n. induction items as [|x rest IH]; intros n; cbn.
  - split; [tauto|]. intros [_ H]. now destruct (i - n)%nat.
  - rewrite IH. split.
    + intros [H|[H1 H2]].
      * injection H as <- <-. rewrite Nat.sub_diag. split; auto.
      * split; [lia|]. replace (i - n)%nat with (S (i - S n)) by lia. exact H2.
    + intros [H1 H2]. destruct (Nat.eq_dec i n) as [->|Hne].
      * rewrite Nat.sub_diag in H2. cbn in H2. injection H2 as ->. now left.
      * right. split; [lia|].
        replace (i - n)%nat with (S (i - S n)) in H2 by lia. exact H2.
Qed.

Lemma workers_from_are_workers (t : Task) (n : nat) (items : list Item) :
  In t (workers_from n items) -> exists i item, t = TWorker i item.
Proof.
  revert n. induction items as [|x rest IH]; intros n; cbn; [tauto|].
  intros [<-|H]; eauto.
Qed.

Lemma workers_from_length (n : nat) (items : list Item) :
  List.length (workers_from n items) = List.length items.
Proof.
  revert n. induction items as [|x rest IH]; intros n; cbn; [reflexivity|].
  now rewrite IH.
Qed.

(* ------------------------------------------------------------------ *)
(** ** Invariants of a run *)

Lemma NewGlsdl_fresh (e : Env) (home : string) (t : Z) :
  fresh (NewGlsdl e home t).
Proof. repeat split. Qed.

Lemma wg_inv_step (env : Task -> Env) (feed : Feed) (s s' : Sched) :
  wg_inv s -> step_kind env feed s s' -> wg_inv s'.
Proof.
  intros [Hwf Hwg] Hk.
  destruct Hk as [m Hm ->|t m Hm ->|m Hm Hz ->|k t r d ev Hk Hr ->];
    unfold wg_inv; cbn [main shared live waitGroup set_waitGroup].
  - rewrite Hm in *. destruct Hwf as [Hp|(t & m' & E & _)]; [|discriminate].
    destruct m as [|[|t|] m']; cbn in Hp; try tauto.
    split; [right; eauto|]. cbn in *. lia.
  - rewrite Hm in *. destruct Hwf as [Hp|(t' & m' & E & Hp)]; [now cbn in Hp|].
    injection E as -> ->. split; [now left|].
    rewrite length_app, (paired_pending _ Hp). cbn in *. lia.
  - rewrite Hm in *. destruct Hwf as [Hp|(t' & m' & E & Hp)]; [|discriminate].
    cbn in Hp. split; [now left|].
    rewrite (paired_pending _ Hp). cbn in Hwg. lia.
  - split; [exact Hwf|].
    apply run_task_effect in Hr as [Hw _].
    rewrite (remove_nth_length _ _ _ Hk) in Hwg. lia.
Qed.

Lemma wg_inv_init (dl : Glsdl) (feed : Feed) :
  waitGroup dl = 0 -> wg_inv (init dl feed).
Proof.
  intros Hfresh. split; cbn.
  - left. cbn. apply paired_loop.
  - exact Hfresh.
Qed.

Lemma wg_inv_reachable (env : Task -> Env) (dl : Glsdl) (feed : Feed) (s : Sched) :
  waitGroup dl = 0 -> reachable env dl feed s -> wg_inv s.
Proof.
  intros Hfresh. apply reachable_ind.
  - now apply wg_inv_init.
  - intros s0 s' Hinv _ Hk. eapply wg_inv_step; eauto.
Qed.

(** A [Wait] that goes on finds no goroutine live. *)
Lemma wg_inv_wait (s : Sched) (m : list Action) :
  wg_inv s -> main s = AWait :: m -> waitGroup (shared s) = 0 -> live s = [].
Proof.
  intros [_ Hwg] Hm Hz. rewrite Hm, Hz in Hwg. cbn in Hwg.
  destruct (live s); [reflexivity|cbn in Hwg; lia].
Qed.

Lemma tasks_inv_step (env : Task -> Env) (feed : Feed) (s s' : Sched) :
  tasks_inv feed s -> step_kind env feed s s' -> tasks_inv feed s'.
Proof.
  unfold tasks_inv. intros Hinv Hk.
  destruct Hk as [m Hm ->|t m Hm ->|m Hm Hz ->|k t r d ev Hk Hr ->];
    cbn [main live fin]; try (rewrite Hm in Hinv; cbn in Hinv).
  - exact Hinv.
  - rewrite <- Hinv, <- app_assoc. apply Permutation_app_head. cbn.
    apply Permutation_middle.
  - exact Hinv.
  - rewrite <- Hinv.
    rewrite (remove_nth_perm _ _ _ Hk) at 2. cbn.
    symmetry. apply Permutation_middle.
Qed.

Lemma tasks_inv_reachable (env : Task -> Env) (dl : Glsdl) (feed : Feed)
  (s : Sched) :
  reachable env dl feed s -> tasks_inv feed s.
Proof.
  apply reachable_ind.
  - unfold tasks_inv. cbn. now rewrite tasks_of_loop.
  - intros s0 s' Hinv _ Hk. eapply tasks_inv_step; eauto.
Qed.

Lemma bump_small (b : bool) (z : Z) :
  0 <= z < MaxInt -> bump b z = z + Z.b2z b.
Proof.
  intros H. destruct b; cbn; [|lia].
  apply int_incr_small. unfold MinInt. lia.
Qed.

Lemma stats_inv_reachable (env : Task -> Env) (dl : Glsdl) (feed : Feed)
  (s : Sched) :
  fresh dl ->
  Z.of_nat (List.length (Items feed)) < MaxInt ->
  reachable env dl feed s -> stats_inv s.
Proof.
  intros (_ & Hd & Hp & Hf) Hlen Hreach.
  enough (tasks_inv feed s /\ stats_inv s) by tauto.
  revert s Hreach. apply reachable_ind.
  - split; [apply (tasks_inv_reachable env dl); now exists []|].
    intros _. cbn. rewrite Hd, Hp, Hf. repeat split; lia.
  - intros s s' [Ht Hs] Hc Hk. split.
    { eapply tasks_inv_step; eauto. }
    specialize (Hs Hc).
    destruct Hk as [m Hm ->|t m Hm ->|m Hm Hz ->|k t r d ev Hk Hr ->];
      unfold stats_inv; cbn [crashed shared fin statDl statProcess statFail
                               set_waitGroup]; try (intros _; exact Hs).
    intros Hnp. destruct r as [[]|msg]; [|discriminate].
    apply run_task_effect in Hr as [_ Hr].
    destruct (Hr eq_refl) as (bp & bf & bd & Ep & Ef & Ed & Hsum & Hbd).
    destruct Hs as (H1 & H2 & H3 & H4 & H5).
    assert (Hfin : Z.of_nat (List.length (fin s)) < MaxInt).
    { apply Permutation_length in Ht. cbn in Ht.
      rewrite !length_app in Ht.
      rewrite (remove_nth_length _ _ _ Hk) in Ht.
      rewrite workers_from_length in Ht. lia. }
    pose proof (total_counted_range (fin s)).
    rewrite Ep, Ef, Ed, !bump_small by lia.
    cbn [total_counted fold_right]. fold (total_counted (fin s)).
    pose proof (counted_range t).
    destruct bp, bf, bd; cbn in *; repeat split; lia.
Qed.

(* ------------------------------------------------------------------ *)
(** ** The counters after a run *)

(** C4 as stated fails.  One episode whose file downloads but cannot be
    opened: [K = 1], [M = 0], and after the run [statProcess] is 1 (the
    cover), [statFail] is 1 and [statDl] is 2, so the sum is [K - M + 1]
    and more files were downloaded than processed. *)
Lemma Process_counters_count_the_cover :
  exists s,
    exec env_open_fails one_episode run_one_episode
      (init (sample_dl 4) one_episode) = Some s
    /\ main s = [] /\ live s = [] /\ crashed s = false
    /\ Z.of_nat (List.length (Items one_episode))
       - count_skipped (Items one_episode) = 1
    /\ statProcess (shared s) = 1
    /\ statFail (shared s) = 1
    /\ statDl (shared s) = 2.
Proof.
  eexists. split; [vm_compute; reflexivity|]. repeat split.
Qed.

(** C4, amended.  Once [Process] has returned, every goroutine has
    finished and none has panicked, [statProcess + statFail] is the number
    of items whose first enclosure has a length, plus one for the cover,
    and [statDl] is at most that sum.  (The increments of one goroutine are
    not interleaved with those of another in this model.) *)
Theorem Process_counters (env : Task -> Env) (e : Env) (home : string)
  (t : Z) (feed : Feed) (s : Sched) :
  Z.of_nat (List.length (Items feed)) < MaxInt ->
  reachable env (NewGlsdl e home t) feed s ->
  main s = [] ->
  live s = [] ->
  crashed s = false ->
  statProcess (shared s) + statFail (shared s)
  = Z.of_nat (List.length (Items feed)) - count_skipped (Items feed) + 1
  /\ 0 <= statDl (shared s) <= statProcess (shared s) + statFail (shared s).
Proof.
  intros Hlen Hreach Hmain Hlive Hc.
  pose proof (tasks_inv_reachable _ _ _ _ Hreach) as Ht.
  pose proof (stats_inv_reachable _ _ _ _ (NewGlsdl_fresh e home t) Hlen Hreach Hc)
    as (H1 & H2 & H3 & H4 & H5).
  unfold tasks_inv in Ht. rewrite Hmain, Hlive in Ht. cbn in Ht.
  rewrite app_nil_r in Ht.
  rewrite (total_counted_perm _ _ Ht) in H4.
  cbn [total_counted fold_right counted] in H4.
  fold (total_counted (workers_from 0 (Items feed))) in H4.
  rewrite total_counted_workers in H4. split; lia.
Qed.

Lemma Process_counters_witness :
  exists s,
    exec (fun _ => unix) two_episodes run_two_episodes
      (init (sample_dl 2) two_episodes) = Some s
    /\ statProcess (shared s) + statFail (shared s) = 3.
Proof.
  destruct (exec (fun _ => unix) two_episodes run_two_episodes
              (init (sample_dl 2) two_episodes)) as [s|] eqn:E;
    [|vm_compute in E; discriminate E].
  exists s. split; [reflexivity|].
  assert (Hs : main s = [] /\ live s = [] /\ crashed s = false).
  { vm_compute in E. injection E as <-. repeat split. }
  destruct Hs as (Hm & Hl & Hc).
  exact (proj1 (Process_counters (fun _ => unix) unix "/home/gopher"%string 2
                  two_episodes s ltac:(vm_compute; reflexivity)
                  (exec_reachable _ _ _ _ _ E) Hm Hl Hc)).
Defined.

(* ------------------------------------------------------------------ *)
(** ** When [Process] returns *)

(** C3 on the empty feed: [Process] starts the cover, the loop body never
    runs, [counter] stays 0 and no [Wait] is executed; [Process] has
    returned while the cover goroutine is still live. *)
Theorem Process_empty_feed_does_not_wait (env : Task -> Env) (dl : Glsdl)
  (img : option Image) :
  exists s,
    reachable env dl {| FeedImage := img; Items := [] |} s
    /\ returned s /\ live s = [TCover] /\ fin s = [].
Proof.
  eexists. split; [exists [RunMain; RunMain]; reflexivity|].
  repeat split.
Qed.

Lemma covered_loop (t : Z) (items : list Item) :
  1 <= t <= MaxInt ->
  forall (c : Z) (n : nat),
    0 <= c < t ->
    covered (Process_loop t c n items) = true
    /\ (0 < c \/ items <> [] -> has_wait (Process_loop t c n items) = true).
Proof.
  intros Ht. induction items as [|item rest IH]; intros c n Hc.
  - cbn. destruct (Z.ltb_spec 0 c); cbn; (split; [reflexivity|]);
      [ auto | intros [H'|H']; [lia | now elim H'] ].
  - cbn [Process_loop]. rewrite int_incr_small by (unfold MinInt; lia).
    destruct (Z.leb_spec t (c + 1)).
    + destruct (IH 0 (S n) ltac:(lia)) as [Hcov _].
      cbn. rewrite Hcov. split; auto.
    + destruct (IH (c + 1) (S n) ltac:(lia)) as [Hcov Hw].
      specialize (Hw ltac:(left; lia)). cbn. unfold has_wait in *.
      cbn. rewrite Hcov, Hw. split; auto.
Qed.

Lemma covered_inv_reachable (env : Task -> Env) (dl : Glsdl) (feed : Feed)
  (s : Sched) :
  1 <= threads dl <= MaxInt ->
  Items feed <> [] ->
  waitGroup dl = 0 ->
  reachable env dl feed s -> covered_inv s.
Proof.
  intros Ht Hne Hfresh Hreach.
  enough (wg_inv s /\ covered_inv s) by tauto.
  revert s Hreach. apply reachable_ind.
  - split; [now apply wg_inv_init|].
    destruct (covered_loop (threads dl) (Items feed) Ht 0 0%nat ltac:(lia))
      as [Hcov Hw].
    split; [|now left]. cbn. rewrite Hcov, Hw; auto.
  - intros s s' [Hwg [Hcov Hlw]] Hc Hk. split.
    { eapply wg_inv_step; eauto. }
    destruct Hk as [m Hm ->|t m Hm ->|m Hm Hz ->|k t r d ev Hk Hr ->];
      unfold covered_inv; cbn [main live]; try rewrite Hm in Hcov, Hlw.
    + cbn in *. auto.
    + cbn in Hcov. apply andb_true_iff in Hcov as [Hw Hcov]. auto.
    + cbn in Hcov. split; [exact Hcov|left].
      eapply wg_inv_wait; eauto.
    + split; [exact Hcov|]. destruct Hlw as [Hl|Hw]; [|now right].
      rewrite Hl in Hk. now destruct k.
Qed.

(** X1. On a feed with at least one item [Process] returns only when the
    cover and every worker have finished. *)
Lemma Process_nonempty_feed_waits (env : Task -> Env) (dl : Glsdl)
  (feed : Feed) (s : Sched) :
  1 <= threads dl <= MaxInt ->
  Items feed <> [] ->
  waitGroup dl = 0 ->
  reachable env dl feed s ->
  main s = [] ->
  live s = [] /\ Permutation (fin s) (TCover :: workers_from 0 (Items feed)).
Proof.
  intros Ht Hne Hfresh Hreach Hmain.
  destruct (covered_inv_reachable _ _ _ _ Ht Hne Hfresh Hreach) as [_ Hl].
  pose proof (tasks_inv_reachable _ _ _ _ Hreach) as Hp.
  unfold tasks_inv in Hp. rewrite Hmain in *. cbn in Hl.
  destruct Hl as [Hl|Hl]; [|discriminate].
  split; [exact Hl|]. rewrite Hl in Hp. cbn in Hp.
  now rewrite app_nil_r in Hp.
Qed.

(* ------------------------------------------------------------------ *)
(** ** The batch barrier *)

Lemma count_workers_cons (t : Task) (l : list Task) :
  count_workers (t :: l) = count_workers [t] + count_workers l.
Proof. apply (count_workers_app [t] l). Qed.

Lemma count_workers_one (t : Task) : 0 <= count_workers [t] <= 1.
Proof. destruct t; cbn; lia. Qed.

Lemma segments_loop (t : Z) (items : list Item) :
  1 <= t <= MaxInt ->
  forall (c : Z) (n : nat),
    0 <= c < t ->
    count_workers (segment (Process_loop t c n items)) <= t - c
    /\ segments_ok t (Process_loop t c n items).
Proof.
  intros Ht. induction items as [|item rest IH]; intros c n Hc.
  - cbn. destruct (0 <? c); cbn; repeat split; lia.
  - cbn [Process_loop]. rewrite int_incr_small by (unfold MinInt; lia).
    destruct (Z.leb_spec t (c + 1)).
    + destruct (IH 0 (S n) ltac:(lia)) as [Hw Hs].
      cbn [segment segments_ok]. split; [cbn; lia|]. split; [lia|exact Hs].
    + destruct (IH (c + 1) (S n) ltac:(lia)) as [Hw Hs].
      cbn [segment segments_ok]. rewrite count_workers_cons.
      split; [|exact Hs]. change (count_workers [TWorker n item]) with 1. lia.
Qed.

Lemma width_inv_reachable (env : Task -> Env) (dl : Glsdl) (feed : Feed)
  (s : Sched) :
  1 <= threads dl <= MaxInt ->
  waitGroup dl = 0 ->
  reachable env dl feed s -> width_inv (threads dl) s.
Proof.
  intros Ht Hfresh Hreach.
  enough (wg_inv s /\ width_inv (threads dl) s) by tauto.
  revert s Hreach. apply reachable_ind.
  - split; [now apply wg_inv_init|].
    destruct (segments_loop (threads dl) (Items feed) Ht 0 0%nat ltac:(lia))
      as [Hw Hs].
    split; [|exact Hs]. cbn [init main live Process_main segment].
    rewrite count_workers_cons.
    change (count_workers [TCover]) with 0. change (count_workers []) with 0.
    lia.
  - intros s s' [Hwg [Hw Hs]] Hc Hk. split.
    { eapply wg_inv_step; eauto. }
    destruct Hk as [m Hm ->|t m Hm ->|m Hm Hz ->|k t r d ev Hk Hr ->];
      unfold width_inv; cbn [main live]; try rewrite Hm in Hw, Hs.
    + cbn in *. auto.
    + cbn [segment segments_ok] in *. split; [|exact Hs].
      rewrite count_workers_app. rewrite count_workers_cons in Hw. lia.
    + cbn [segment segments_ok] in *.
      rewrite (wg_inv_wait _ _ Hwg Hm Hz).
      change (count_workers []) with 0. split; [lia|tauto].
    + split; [|exact Hs].
      rewrite (count_workers_perm _ _ (remove_nth_perm _ _ _ Hk)) in Hw.
      rewrite count_workers_cons in Hw.
      pose proof (count_workers_one t). lia.
Qed.

Lemma batch_le_refl (threads : Z) (t : Task) : batch_le threads t t.
Proof. destruct t; cbn; [exact I|lia]. Qed.

Lemma segment_tasks (p : list Action) (t : Task) :
  In t (segment p) -> In t (tasks_of p).
Proof.
  induction p as [|[|t0|] p IH]; cbn; try tauto.
Qed.

Lemma segment_loop_bound (t : Z) (items : list Item) :
  1 <= t <= MaxInt ->
  forall (c : Z) (n j : nat) (it : Item),
    0 <= c < t ->
    In (TWorker j it) (segment (Process_loop t c n items)) ->
    Z.of_nat j < Z.of_nat n + (t - c).
Proof.
  intros Ht. induction items as [|item rest IH]; intros c n j it Hc.
  - cbn. destruct (0 <? c); cbn; tauto.
  - cbn [Process_loop]. rewrite int_incr_small by (unfold MinInt; lia).
    destruct (Z.leb_spec t (c + 1)); cbn [segment In].
    + intros [E|[]]. injection E as <- _. lia.
    + intros [E|Hin].
      * injection E as <- _. lia.
      * apply IH in Hin; lia.
Qed.

Lemma div_block (t q x : Z) : 0 < t -> t * q <= x < t * q + t -> x / t = q.
Proof.
  intros Ht Hx. symmetry. apply Z.div_unique with (r := x - t * q); lia.
Qed.

Lemma batch_ordered_loop (t : Z) (items : list Item) :
  1 <= t <= MaxInt ->
  forall (c : Z) (n : nat) (q : Z),
    0 <= c < t ->
    Z.of_nat n - c = t * q ->
    batch_ordered t (Process_loop t c n items).
Proof.
  intros Ht. induction items as [|item rest IH]; intros c n q Hc Hq.
  - cbn. destruct (0 <? c); cbn; exact I.
  - cbn [Process_loop].
    assert (Hlater : forall X u,
               tasks_of X = workers_from (S n) rest ->
               In u (tasks_of X) -> batch_le t (TWorker n item) u).
    { intros X u HX Hu. rewrite HX in Hu.
      destruct (workers_from_are_workers _ _ _ Hu) as (j & it & ->).
      apply workers_from_In in Hu as [Hj _]. cbn. unfold batch_index.
      apply Z.div_le_mono; lia. }
    rewrite int_incr_small by (unfold MinInt; lia).
    destruct (Z.leb_spec t (c + 1)); cbn [batch_ordered].
    + split; [|split].
      * intros u Hu. eapply Hlater; [|exact Hu]. cbn. apply tasks_of_loop.
      * cbn. tauto.
      * apply (IH 0 (S n) (q + 1)); lia.
    + split; [|split].
      * intros u Hu. eapply Hlater; [|exact Hu]. apply tasks_of_loop.
      * intros u Hu. pose proof (segment_tasks _ _ Hu) as Hu'.
        rewrite tasks_of_loop in Hu'.
        destruct (workers_from_are_workers _ _ _ Hu') as (j & it & ->).
        apply workers_from_In in Hu' as [Hj _].
        apply segment_loop_bound in Hu; [|exact Ht|lia].
        cbn. unfold batch_index.
        rewrite (div_block t q (Z.of_nat j)), (div_block t q (Z.of_nat n)); lia.
      * apply (IH (c + 1) (S n) q); lia.
Qed.

Lemma barrier_inv_reachable (env : Task -> Env) (dl : Glsdl) (feed : Feed)
  (s : Sched) :
  1 <= threads dl <= MaxInt ->
  waitGroup dl = 0 ->
  reachable env dl feed s -> barrier_inv (threads dl) s.
Proof.
  intros Ht Hfresh Hreach.
  enough (wg_inv s /\ barrier_inv (threads dl) s) by tauto.
  revert s Hreach. apply reachable_ind.
  - split; [now apply wg_inv_init|].
    split; [|split]; cbn [init main live fin Process_main]; try (cbn; tauto).
    cbn [batch_ordered]. split; [|split].
    + intros; exact I.
    + intros u _. now destruct u.
    + apply (batch_ordered_loop _ _ Ht 0 0%nat 0); lia.
  - intros s s' [Hwg (Ho & Hb1 & Hb2)] Hc Hk. split.
    { eapply wg_inv_step; eauto. }
    destruct Hk as [m Hm ->|t m Hm ->|m Hm Hz ->|k t r d ev Hk Hr ->];
      unfold barrier_inv; cbn [main live fin];
      try rewrite Hm in Ho, Hb1, Hb2.
    + cbn in *. auto.
    + cbn [batch_ordered tasks_of segment] in *.
      destruct Ho as (Ho1 & Ho2 & Ho3).
      split; [exact Ho3|]. split.
      * intros u' u Hu' Hu.
        rewrite <- app_assoc in Hu'.
        apply in_app_or in Hu' as [Hu'|Hu'];
          [|apply in_app_or in Hu' as [[<-|[]]|Hu']].
        -- apply Hb1; [apply in_or_app; now left|].
           rewrite <- app_assoc in Hu. apply in_app_or in Hu as [Hu|Hu];
             apply in_or_app; [now left|now right].
        -- rewrite <- app_assoc in Hu.
           apply in_app_or in Hu as [Hu|[<-|Hu]].
           ++ apply Hb2; [exact Hu|now left].
           ++ apply batch_le_refl.
           ++ now apply Ho1.
        -- apply Hb1; [apply in_or_app; now right|].
           rewrite <- app_assoc in Hu. apply in_app_or in Hu as [Hu|Hu];
             apply in_or_app; [now left|now right].
      * intros u u0 Hu Hu0. apply in_app_or in Hu as [Hu|[<-|[]]].
        -- apply Hb2; [exact Hu|now right].
        -- now apply Ho2.
    + cbn [batch_ordered tasks_of segment] in *.
      rewrite (wg_inv_wait _ _ Hwg Hm Hz) in *.
      split; [exact Ho|]. split; [exact Hb1|]. intros u u0 [].
    + split; [exact Ho|]. split.
      * intros u' u Hu' Hu. apply Hb1.
        -- apply in_app_or in Hu' as [Hu'|[<-|Hu']]; apply in_or_app.
           ++ left. eapply remove_nth_In; eauto.
           ++ left. eapply nth_error_In; eauto.
           ++ now right.
        -- apply in_app_or in Hu as [Hu|Hu]; apply in_or_app;
             [left; eapply remove_nth_In; eauto|now right].
      * intros u u0 Hu Hu0. apply Hb2; [|exact Hu0].
        eapply remove_nth_In; eauto.
Qed.

(** The worker of item [i] is in batch [i / threads]. *)
Lemma batches_from_loop_index (t : Z) (items : list Item) :
  1 <= t <= MaxInt ->
  forall (c : Z) (n : nat) (cur : list Task) bs r,
    0 <= c < t ->
    batches_from cur (Process_loop t c n items) = (bs, r) ->
    forall k b i it,
      nth_error bs k = Some b ->
      In (TWorker i it) b ->
      (k = 0%nat /\ In (TWorker i it) cur)
      \/ ((n <= i)%nat /\ (Z.of_nat i - (Z.of_nat n - c)) / t = Z.of_nat k).
Proof.
  intros Ht. induction items as [|item rest IH]; intros c n cur bs r Hc.
  - cbn [Process_loop]. destruct (0 <? c); cbn; intros H;
      injection H as <- <-; intros [|k] b i it Hb Hin; cbn in Hb;
      try discriminate.
    + injection Hb as <-. now left.
    + now destruct k.
  - cbn [Process_loop batches_from].
    rewrite int_incr_small by (unfold MinInt; lia).
    destruct (Z.leb_spec t (c + 1)) as [Hfull|Hroom].
    + cbn [batches_from].
      destruct (batches_from [] (Process_loop t 0 (S n) rest)) as [bs' r'] eqn:E.
      intros H; injection H as <- <-.
      intros [|k] b i it Hb Hin; cbn in Hb.
      * injection Hb as <-. apply in_app_or in Hin as [Hin|[Hin|[]]].
        -- now left.
        -- injection Hin as <- _. right. split; [lia|].
           apply Z.div_small. lia.
      * destruct (IH 0 (S n) [] bs' r' ltac:(lia) E k b i it Hb Hin)
          as [[_ []]|[Hi Hk]].
        right. split; [lia|].
        replace (Z.of_nat i - (Z.of_nat n - c))
          with (Z.of_nat i - (Z.of_nat (S n) - 0) + 1 * t) by lia.
        rewrite Z.div_add by lia. lia.
    + intros H k b i it Hb Hin.
      destruct (IH (c + 1) (S n) _ bs r ltac:(lia) H k b i it Hb Hin)
        as [[Hk Hc']|[Hi Hk]].
      * apply in_app_or in Hc' as [Hc'|[Hc'|[]]].
        -- now left.
        -- injection Hc' as <- _. right. split; [lia|]. subst k.
           apply Z.div_small. lia.
      * right. split; [lia|]. rewrite <- Hk. f_equal. lia.
Qed.

Lemma batches_index (t : Z) (feed : Feed) (k : nat) (b : list Task) (u : Task) :
  1 <= t <= MaxInt ->
  nth_error (batches (Process_main t feed)) k = Some b ->
  In u b ->
  exists i it,
    u = TWorker i it
    /\ In u (workers_from 0 (Items feed))
    /\ batch_index t i = Z.of_nat k.
Proof.
  intros Ht Hb Hin.
  unfold batches, Process_main in Hb. cbn [batches_from] in Hb.
  destruct (batches_from [] (Process_loop t 0 0 (Items feed))) as [bs r] eqn:E.
  cbn [fst] in Hb.
  destruct (batches_from_loop t (Items feed) Ht 0 0%nat [] bs r
              ltac:(lia) eq_refl E) as (_ & Hcat & _).
  assert (Hw : In u (workers_from 0 (Items feed))).
  { change (workers_from 0 (Items feed))
      with ([] ++ workers_from 0 (Items feed))%list.
    rewrite <- Hcat. apply in_concat. exists b. split; [|exact Hin].
    eapply nth_error_In; eauto. }
  destruct (workers_from_are_workers _ _ _ Hw) as (i & it & ->).
  exists i, it. split; [reflexivity|]. split; [exact Hw|].
  destruct (batches_from_loop_index t (Items feed) Ht 0 0%nat [] bs r
              ltac:(lia) E k b i it Hb Hin) as [[_ []]|[_ Hk]].
  unfold batch_index. rewrite <- Hk. f_equal. lia.
Qed.

(** C2. With [1 <= threads], in every state a run reaches: the workers
    started and not finished are at most [threads]; and when a worker of a
    batch has been started, every worker of every earlier batch has
    finished (its deferred [Done] has run). *)
Theorem Process_batch_barrier (env : Task -> Env) (e : Env) (home : string)
  (t : Z) (feed : Feed) (s : Sched) :
  1 <= t <= MaxInt ->
  reachable env (NewGlsdl e home t) feed s ->
  count_workers (live s) <= t
  /\ forall k k' b b' u u',
       nth_error (batches (Process_main t feed)) k = Some b ->
       nth_error (batches (Process_main t feed)) k' = Some b' ->
       (k < k')%nat ->
       In u b ->
       In u' b' ->
       In u' (live s ++ fin s)%list ->
       In u (fin s).
Proof.
  intros Ht Hreach. split.
  - destruct (width_inv_reachable env (NewGlsdl e home t) feed s Ht eq_refl Hreach)
      as [Hw _].
    pose proof (count_workers_nonneg (segment (main s))). cbn in Hw. lia.
  - intros k k' b b' u u' Hb Hb' Hlt Hu Hu' Hstarted.
    destruct (batches_index _ _ _ _ _ Ht Hb Hu) as (i & it & -> & Hw & Hi).
    destruct (batches_index _ _ _ _ _ Ht Hb' Hu') as (j & jt & -> & _ & Hj).
    destruct (barrier_inv_reachable env (NewGlsdl e home t) feed s Ht eq_refl Hreach)
      as (_ & Hb1 & _).
    pose proof (tasks_inv_reachable _ _ _ _ Hreach) as Hp.
    unfold tasks_inv in Hp.
    assert (Hin : In (TWorker i it) (live s ++ fin s ++ tasks_of (main s))%list).
    { eapply Permutation_in; [symmetry; exact Hp|]. now right. }
    apply in_app_or in Hin as [Hin|Hin];
      [|apply in_app_or in Hin as [Hin|Hin]; [exact Hin|]].
    + exfalso.
      specialize (Hb1 (TWorker j jt) (TWorker i it) Hstarted
                    ltac:(apply in_or_app; now left)).
      cbn in Hb1. lia.
    + exfalso.
      specialize (Hb1 (TWorker j jt) (TWorker i it) Hstarted
                    ltac:(apply in_or_app; now right)).
      cbn in Hb1. lia.
Qed.

Lemma Process_batch_barrier_witness :
  exists s,
    exec (fun _ => unix) two_episodes run_first_batch
      (init (sample_dl 1) two_episodes) = Some s
    /\ count_workers (live s) <= 1.
Proof.
  destruct (exec (fun _ => unix) two_episodes run_first_batch
              (init (sample_dl 1) two_episodes)) as [s|] eqn:E;
    [|vm_compute in E; discriminate E].
  exists s. split; [reflexivity|].
  exact (proj1 (Process_batch_barrier (fun _ => unix) unix "/home/gopher"%string 1
                  two_episodes s ltac:(unfold MaxInt; lia)
                  (exec_reachable _ _ _ _ _ E))).
Defined.

(* ------------------------------------------------------------------ *)
(** ** Further properties of [Process] *)

Lemma Process_nonempty_feed_waits_witness :
  exists s,
    exec (fun _ => unix) two_episodes run_two_episodes
      (init (sample_dl 2) two_episodes) = Some s
    /\ live s = [].
Proof.
  destruct (exec (fun _ => unix) two_episodes run_two_episodes
              (init (sample_dl 2) two_episodes)) as [s|] eqn:E;
    [|vm_compute in E; discriminate E].
  exists s. split; [reflexivity|].
  assert (Hm : main s = []).
  { vm_compute in E. injection E as <-. reflexivity. }
  exact (proj1 (Process_nonempty_feed_waits (fun _ => unix) (sample_dl 2)
                  two_episodes s ltac:(cbn; unfold MaxInt; lia)
                  ltac:(discriminate) eq_refl
                  (exec_reachable _ _ _ _ _ E) Hm)).
Defined.

Lemma parseTitle_matched_title_clean_witness :
  contains_byte "/"%char "A_B"%string = false.
Proof.
  exact (parseTitle_matched_title_clean unix (sample_dl 4)
           (episode "Episode 7. A/B"%string) "7"%string "A_B"%string
           ltac:(discriminate) ltac:(vm_compute; discriminate) eq_refl).
Defined.

(** [counter >= dl.threads] holds after every item when the thread count
    is one or less. *)
Lemma Process_loop_serial (t : Z) (n : nat) (items : list Item) :
  t <= 1 ->
  Process_loop t 0 n items
  = flat_map (fun w => [AAdd; AGo w; AWait]) (workers_from n items).
Proof.
  intros Ht. revert n. induction items as [|item rest IH]; intros n.
  - reflexivity.
  - cbn [Process_loop workers_from flat_map].
    change (int_incr 0) with 1.
    destruct (Z.leb_spec t 1); [|lia].
    cbn. now rewrite IH.
Qed.

Lemma batches_from_serial (ws : list Task) :
  Forall (fun w => is_worker w = true) ws ->
  batches_from [] (flat_map (fun w => [AAdd; AGo w; AWait]) ws)
  = (map (fun w => [w]) ws, []).
Proof.
  induction 1 as [|w ws Hw _ IH]; [reflexivity|].
  destruct w as [|i item]; [discriminate Hw|].
  cbn. now rewrite IH.
Qed.

Lemma workers_from_all_workers (n : nat) (items : list Item) :
  Forall (fun w => is_worker w = true) (workers_from n items).
Proof.
  revert n. induction items as [|x rest IH]; intros n; cbn; constructor; auto.
Qed.

(** X3. With a thread count of one or less (zero and negative values of the
    [-t] flag included) [Process] handles the items one at a time: every
    worker is a batch of its own, followed by its [Wait]. *)
Theorem Process_serial_when_threads_at_most_1 (t : Z) (feed : Feed) :
  t <= 1 ->
  batches (Process_main t feed)
  = map (fun w => [w]) (workers_from 0 (Items feed))
  /\ unwaited (Process_main t feed) = [].
Proof.
  intros Ht. unfold batches, unwaited, Process_main. cbn [batches_from].
  rewrite (Process_loop_serial t 0 (Items feed) Ht).
  rewrite batches_from_serial by apply workers_from_all_workers.
  split; reflexivity.
Qed.

Lemma Process_serial_when_threads_at_most_1_witness :
  List.length (batches (Process_main (-3) two_episodes)) = 2%nat.
Proof.
  rewrite (proj1 (Process_serial_when_threads_at_most_1 (-3) two_episodes
                    ltac:(lia))).
  reflexivity.
Defined.

(** X4. The counter of the wait group is the number of live goroutines, plus
    one between an [Add(1)] and its [go]: it is never negative, so [Done]
    never panics, and a [Wait] that goes on finds every goroutine
    finished. *)
Theorem waitGroup_counts_live (env : Task -> Env) (dl : Glsdl) (feed : Feed)
  (s : Sched) :
  waitGroup dl = 0 ->
  reachable env dl feed s ->
  Z.of_nat (List.length (live s)) <= waitGroup (shared s)
                                  <= Z.of_nat (List.length (live s)) + 1
  /\ (waitGroup (shared s) = 0 -> live s = []).
Proof.
  intros Hfresh Hreach.
  destruct (wg_inv_reachable _ _ _ _ Hfresh Hreach) as [_ Hwg].
  assert (Hp : 0 <= pending (main s) <= 1).
  { destruct (main s) as [|[| |] m]; cbn; lia. }
  split; [lia|].
  intros Hz. destruct (live s); [reflexivity|cbn [List.length] in Hwg; lia].
Qed.

Lemma waitGroup_counts_live_witness :
  exists s,
    exec (fun _ => unix) two_episodes run_first_batch
      (init (sample_dl 1) two_episodes) = Some s
    /\ Z.of_nat (List.length (live s)) <= waitGroup (shared s).
Proof.
  destruct (exec (fun _ => unix) two_episodes run_first_batch
              (init (sample_dl 1) two_episodes)) as [s|] eqn:E;
    [|vm_compute in E; discriminate E].
  exists s. split; [reflexivity|].
  exact (proj1 (proj1 (waitGroup_counts_live (fun _ => unix) (sample_dl 1)
                         two_episodes s eq_refl
                         (exec_reachable _ _ _ _ _ E)))).
Defined.

Lemma NoDup_workers_from (n : nat) (items : list Item) :
  NoDup (workers_from n items).
Proof.
  revert n. induction items as [|x rest IH]; intros n; cbn; constructor; auto.
  intros Hin. apply workers_from_In in Hin as [Hle _]. lia.
Qed.

(** X5. No goroutine is started twice: the goroutines started so far are
    distinct, and each is the cover or the worker of an item of the feed at
    its index. *)
Theorem Process_starts_each_task_once (env : Task -> Env) (dl : Glsdl)
  (feed : Feed) (s : Sched) :
  reachable env dl feed s ->
  NoDup (live s ++ fin s)
  /\ forall u, In u (live s ++ fin s) ->
       u = TCover
       \/ exists i item, u = TWorker i item
                         /\ nth_error (Items feed) i = Some item.
Proof.
  intros Hreach.
  pose proof (tasks_inv_reachable _ _ _ _ Hreach) as Hp. unfold tasks_inv in Hp.
  assert (Hnd : NoDup (TCover :: workers_from 0 (Items feed))).
  { constructor; [|apply NoDup_workers_from].
    intros Hin. apply workers_from_are_workers in Hin as (i & it & E).
    discriminate E. }
  split.
  - apply (Permutation_NoDup (Permutation_sym Hp)) in Hnd.
    rewrite app_assoc in Hnd. now apply NoDup_app_remove_r in Hnd.
  - intros u Hu.
    assert (Hin : In u (TCover :: workers_from 0 (Items feed))).
    { eapply Permutation_in; [exact Hp|].
      rewrite app_assoc. apply in_or_app. now left. }
    destruct Hin as [<-|Hin]; [now left|right].
    destruct (workers_from_are_workers _ _ _ Hin) as (i & it & ->).
    apply workers_from_In in Hin as [_ Hn]. rewrite Nat.sub_0_r in Hn. eauto.
Qed.

Lemma Process_starts_each_task_once_witness :
  exists s,
    exec (fun _ => unix) two_episodes run_first_batch
      (init (sample_dl 1) two_episodes) = Some s
    /\ NoDup (live s ++ fin s).
Proof.
  destruct (exec (fun _ => unix) two_episodes run_first_batch
              (init (sample_dl 1) two_episodes)) as [s|] eqn:E;
    [|vm_compute in E; discriminate E].
  exists s. split; [reflexivity|].
  exact (proj1 (Process_starts_each_task_once (fun _ => unix) (sample_dl 1)
                  two_episodes s (exec_reachable _ _ _ _ _ E))).
Defined.

Lemma exec_app (env : Task -> Env) (feed : Feed) (cs cs' : list Choice)
  (s : Sched) :
  exec env feed (cs ++ cs') s
  = match exec env feed cs s with
    | Some s1 => exec env feed cs' s1
    | None => None
    end.
Proof.
  revert s. induction cs as [|c cs IH]; intros s; cbn; [reflexivity|].
  destruct (step env feed c s); [apply IH|reflexivity].
Qed.

Lemma reachable_next (env : Task -> Env) (dl : Glsdl) (feed : Feed)
  (c : Choice) (s s' : Sched) :
  reachable env dl feed s -> step env feed c s = Some s' ->
  reachable env dl feed s'.
Proof.
  intros [cs Hcs] Hstep. exists (cs ++ [c]).
  rewrite exec_app, Hcs. cbn. now rewrite Hstep.
Qed.

Lemma wg_inv_can_step (env : Task -> Env) (feed : Feed) (s : Sched) :
  wg_inv s ->
  crashed s = false ->
  main s <> [] \/ live s <> [] ->
  exists c s', step env feed c s = Some s'.
Proof.
  intros [_ Hwg] Hc Hnot.
  unfold step. rewrite Hc.
  destruct (live s) as [|u l] eqn:Hl.
  - destruct (main s) as [|[|u|] m] eqn:Hm.
    + destruct Hnot as [H|H]; now elim H.
    + exists RunMain. eauto.
    + exists RunMain. eauto.
    + exists RunMain. cbn in Hwg. rewrite Hwg. cbn. eauto.
  - exists (RunTask 0). cbn.
    destruct (run_task env feed u (shared s)) as [[r d] ev]. eauto.
Qed.

(** X6. [Process] cannot get stuck: while it has not returned or a goroutine
    is live, and nothing has panicked, some goroutine can move.  In
    particular a [Wait] with no goroutine live goes on. *)
Theorem Process_never_deadlocks (env : Task -> Env) (dl : Glsdl) (feed : Feed)
  (s : Sched) :
  waitGroup dl = 0 ->
  reachable env dl feed s ->
  crashed s = false ->
  main s <> [] \/ live s <> [] ->
  exists c s', step env feed c s = Some s'.
Proof.
  intros Hfresh Hreach. apply wg_inv_can_step.
  eapply wg_inv_reachable; eauto.
Qed.

Lemma Process_never_deadlocks_witness :
  exists c s',
    step (fun _ => unix) two_episodes c (init (sample_dl 2) two_episodes)
    = Some s'.
Proof.
  exact (Process_never_deadlocks (fun _ => unix) (sample_dl 2) two_episodes
           (init (sample_dl 2) two_episodes) eq_refl
           (exec_reachable _ _ _ [] _ eq_refl) eq_refl
           ltac:(left; discriminate)).
Defined.

(** X9. The cover goroutine is the first one started: whenever a worker has
    been started, so has the cover. *)
Theorem cover_started_before_workers (env : Task -> Env) (dl : Glsdl)
  (feed : Feed) (s : Sched) :
  reachable env dl feed s ->
  forall i item,
    In (TWorker i item) (live s ++ fin s) -> In TCover (live s ++ fin s).
Proof.
  intros Hreach.
  enough (Hinv : (live s = [] /\ fin s = []
                  /\ exists m, main s = AGo TCover :: m
                               \/ main s = AAdd :: AGo TCover :: m)
                 \/ In TCover (live s ++ fin s)).
  { intros i item Hin. destruct Hinv as [(Hl & Hf & _)|H]; [|exact H].
    rewrite Hl, Hf in Hin. elim Hin. }
  revert s Hreach. apply reachable_ind.
  - left. cbn. repeat split. eexists. right. reflexivity.
  - intros s s' Hinv _ Hk.
    destruct Hk as [m Hm ->|t m Hm ->|m Hm Hz ->|k t r d ev Hk Hr ->];
      cbn [main live fin].
    + destruct Hinv as [(Hl & Hf & m' & [E|E])|H]; [| |now right];
        rewrite Hm in E; [discriminate|].
      injection E as ->. left. repeat split; eauto.
    + destruct Hinv as [(Hl & Hf & m' & [E|E])|H].
      * rewrite Hm in E. injection E as -> ->.
        right. rewrite Hl. cbn. now left.
      * rewrite Hm in E. discriminate.
      * right. apply in_app_or in H as [H|H]; apply in_or_app;
          [left; apply in_or_app; now left|now right].
    + destruct Hinv as [(Hl & Hf & m' & [E|E])|H]; [| |now right];
        rewrite Hm in E; discriminate.
    + destruct Hinv as [(Hl & Hf & _)|H].
      * rewrite Hl in Hk. now destruct k.
      * right. apply in_app_or in H as [H|H]; apply in_or_app.
        -- apply (Permutation_in _ (remove_nth_perm _ _ _ Hk)) in H.
           destruct H as [<-|H]; [right; now left|now left].
        -- right. now right.
Qed.

Lemma cover_started_before_workers_witness :
  exists s,
    exec (fun _ => unix) two_episodes run_first_batch
      (init (sample_dl 1) two_episodes) = Some s
    /\ In TCover (live s ++ fin s).
Proof.
  destruct (exec (fun _ => unix) two_episodes run_first_batch
              (init (sample_dl 1) two_episodes)) as [s|] eqn:E;
    [|vm_compute in E; discriminate E].
  exists s. split; [reflexivity|].
  apply (cover_started_before_workers (fun _ => unix) (sample_dl 1)
           two_episodes s (exec_reachable _ _ _ _ _ E) 0%nat
           (episode "Episode 1. Hello"%string)).
  vm_compute in E. injection E as <-. cbn. right. now left.
Defined.

(* ------------------------------------------------------------------ *)
(** ** Further properties of [downloadFile] and [worker] *)

(** X11. [downloadFile] closes what it has opened, once, on every path, the
    response body before the file: nothing when [os.Create] fails, the
    file when [http.Get] fails, the body and then the file otherwise, also
    when [io.Copy] fails. *)
Theorem downloadFile_closes_what_it_opens (e : Env) (url dest : string)
  (d : Glsdl) :
  filter is_close (snd (downloadFile e url dest d))
  = match os_Create e dest, http_Get e url with
    | Some _, _ => []
    | None, Some _ => [ECloseFile dest (file_Close e dest)]
    | None, None => [ECloseBody url (body_Close e url);
                     ECloseFile dest (file_Close e dest)]
    end.
Proof.
  run_monad.
  destruct (os_Create e dest) as [c|], (http_Get e url) as [g|],
    (io_Copy e url dest) as [cp|], (file_Close e dest) as [fc|],
    (body_Close e url) as [bc|]; reflexivity.
Qed.




Lemma only_after_b_sound (p q : Event -> bool) (l : list Event)
  (seen : bool) :
  only_after_b p q seen l = true ->
  forall l1 x l2,
    l = (l1 ++ x :: l2)%list -> p x = true -> seen || existsb q l1 = true.
Proof.
  revert seen. induction l as [|y l IH]; intros seen H l1 x l2 E Hp.
  - destruct l1; discriminate E.
  - cbn [only_after_b] in H. apply andb_true_iff in H as [H1 H2].
    destruct l1 as [|z l1]; cbn [app] in E; injection E as -> ->.
    + rewrite Hp in H1. cbn in H1. cbn. now rewrite orb_false_r.
    + specialize (IH _ H2 l1 x l2 eq_refl Hp). cbn [existsb].
      now rewrite orb_assoc.
Qed.

Lemma never_after_b_sound (p q : Event -> bool) (l : list Event)
  (seen : bool) :
  never_after_b p q seen l = true ->
  forall l1 x l2,
    l = (l1 ++ x :: l2)%list -> p x = true -> seen || existsb q l1 = false.
Proof.
  revert seen. induction l as [|y l IH]; intros seen H l1 x l2 E Hp.
  - destruct l1; discriminate E.
  - cbn [never_after_b] in H. apply andb_true_iff in H as [H1 H2].
    destruct l1 as [|z l1]; cbn [app] in E; injection E as -> ->.
    + rewrite Hp in H1. cbn in H1. cbn. rewrite orb_false_r.
      now destruct seen.
    + specialize (IH _ H2 l1 x l2 eq_refl Hp). cbn [existsb].
      now rewrite orb_assoc.
Qed.

(** The two checks pass on what [worker] does, whatever the item and
    whatever the calls return. *)
Lemma worker_call_order (e : Env) (item : Item) (d : Glsdl) :
  only_after_b is_tag_write is_open_ok false (snd (worker e item d)) = true
  /\ never_after_b is_open is_failed_download false (snd (worker e item d))
     = true.
Proof.
  run_monad.
  destruct (Enclosures item) as [|enc rest]; [cbn; split; reflexivity|].
  destruct (String.length (Length enc) =? 0)%nat; [cbn; split; reflexivity|].
  destruct (parseTitle e d item) as [[prefix title]|msg];
    [|cbn; split; reflexivity].
  cbn [fst snd]. set (f := mediaFile e d prefix title).
  destruct (os_Stat e f);
    [ | destruct (os_Create e f) as [c|], (http_Get e (URL enc)) as [g|],
          (io_Copy e (URL enc) f) as [cp|], (file_Close e f) as [fc|],
          (body_Close e (URL enc)) as [bc|] | ];
    destruct (id3_Open e f) as [oe|], (Author item) as [a|]; cbn;
    split; reflexivity.
Qed.

(** X13. The order of the calls of [worker]: every write to the tag of the
    file, and its [Close], comes after an [id3.Open] that succeeded, and no
    [id3.Open] comes after a step of the download that failed. *)
Theorem worker_tags_only_an_opened_file (e : Env) (item : Item) (d : Glsdl) :
  only_after is_tag_write is_open_ok (snd (worker e item d))
  /\ never_after is_open is_failed_download (snd (worker e item d)).
Proof.
  destruct (worker_call_order e item d) as [H1 H2]. split.
  - intros l1 x l2 E Hp.
    exact (only_after_b_sound _ _ _ _ H1 l1 x l2 E Hp).
  - intros l1 x l2 E Hp.
    exact (never_after_b_sound _ _ _ _ H2 l1 x l2 E Hp).
Qed.

(* ------------------------------------------------------------------ *)
(** ** The counters and the event log *)

Lemma count_events_app (p : Event -> bool) (l l' : list Event) :
  count_events p (l ++ l') = count_events p l + count_events p l'.
Proof. unfold count_events. rewrite filter_app, length_app. lia. Qed.

(** What one goroutine prints and copies is what it adds to [statProcess]
    and [statDl], and it logs a line when it adds to [statFail]. *)
Lemma run_task_log (env : Task -> Env) (feed : Feed) (t : Task) (d : Glsdl)
  d' ev :
  run_task env feed t d = (Ret tt, d', ev) ->
  exists bp bd bf,
    statProcess d' = bump bp (statProcess d)
    /\ statDl d' = bump bd (statDl d)
    /\ statFail d' = bump bf (statFail d)
    /\ count_events is_println ev = Z.b2z bp
    /\ count_events is_copy_ok ev = Z.b2z bd
    /\ Z.b2z bf <= count_events is_log ev.
Proof.
  destruct t as [|i item]; cbn [run_task]; run_monad.
  - destruct (FeedImage feed) as [img|]; [|discriminate].
    set (f := (downloadDir d ++ ps (env TCover) ++ "cover.png")%string).
    destruct (os_Create (env TCover) f) as [c|],
      (http_Get (env TCover) (ImageURL img)) as [g|],
      (io_Copy (env TCover) (ImageURL img) f) as [cp|],
      (file_Close (env TCover) f) as [fc|],
      (body_Close (env TCover) (ImageURL img)) as [bc|]; cbn;
      intros H; injection H as <- <-; cbn;
      first [ exists true, true, false; repeat split; cbn; lia
            | exists true, false, false; repeat split; cbn; lia ].
  - set (e := env (TWorker i item)).
    destruct (Enclosures item) as [|enc rest]; [discriminate|].
    destruct (String.length (Length enc) =? 0)%nat.
    { cbn. intros H; injection H as <- <-. exists false, false, false.
      repeat split; cbn; lia. }
    destruct (parseTitle e d item) as [[prefix title]|msg]; [|discriminate].
    cbn [fst snd]. set (f := mediaFile e d prefix title).
    destruct (os_Stat e f);
      [ | destruct (os_Create e f) as [c|], (http_Get e (URL enc)) as [g|],
            (io_Copy e (URL enc) f) as [cp|], (file_Close e f) as [fc|],
            (body_Close e (URL enc)) as [bc|] | ];
      destruct (id3_Open e f) as [oe|], (Author item) as [a|]; cbn;
      intros H; try discriminate H; injection H as <- <-; cbn;
      first [ exists true, true, false; repeat split; cbn; lia
            | exists true, false, false; repeat split; cbn; lia
            | exists false, true, true; repeat split; cbn; lia
            | exists false, false, true; repeat split; cbn; lia
            | exists false, false, false; repeat split; cbn; lia ].
Qed.

Lemma step_kind_step (env : Task -> Env) (feed : Feed) (s s' : Sched) :
  crashed s = false -> step_kind env feed s s' ->
  exists c, step env feed c s = Some s'.
Proof.
  intros Hc Hk. unfold step. rewrite Hc.
  destruct Hk as [m Hm ->|t m Hm ->|m Hm Hz ->|k t r d ev Hk Hr ->].
  - exists RunMain. now rewrite Hm.
  - exists RunMain. now rewrite Hm.
  - exists RunMain. now rewrite Hm, Hz.
  - exists (RunTask k). now rewrite Hk, Hr.
Qed.

(** X14. While nothing has panicked, [statProcess] is the number of progress
    lines printed so far, [statDl] the number of copies that succeeded, and
    [statFail] is at most the number of lines logged: no failure is counted
    without its line.  (The increments of one goroutine are not interleaved
    with those of another in this model.) *)
Theorem Process_counters_match_log (env : Task -> Env) (e : Env)
  (home : string) (t : Z) (feed : Feed) (s : Sched) :
  Z.of_nat (List.length (Items feed)) < MaxInt ->
  reachable env (NewGlsdl e home t) feed s ->
  crashed s = false ->
  statProcess (shared s) = count_events is_println (out s)
  /\ statDl (shared s) = count_events is_copy_ok (out s)
  /\ statFail (shared s) <= count_events is_log (out s).
Proof.
  intros Hlen Hreach.
  enough (reachable env (NewGlsdl e home t) feed s
          /\ (crashed s = false ->
              statProcess (shared s) = count_events is_println (out s)
              /\ statDl (shared s) = count_events is_copy_ok (out s)
              /\ statFail (shared s) <= count_events is_log (out s)))
    by tauto.
  revert s Hreach. apply reachable_ind.
  - split; [now exists []|]. intros _. repeat split. cbn. lia.
  - intros s s' [Hreach Hinv] Hc Hk.
    destruct (step_kind_step _ _ _ _ Hc Hk) as [c Hstep].
    split; [eapply reachable_next; eauto|].
    specialize (Hinv Hc).
    pose proof (stats_inv_reachable _ _ _ _ (NewGlsdl_fresh e home t) Hlen
                  Hreach Hc) as (H1 & H2 & H3 & H4 & H5).
    pose proof (tasks_inv_reachable _ _ _ _ Hreach) as Ht.
    clear Hstep.
    destruct Hk as [m Hm ->|u m Hm ->|m Hm Hz ->|k u r d ev Hk Hr ->];
      cbn [crashed shared out statDl statProcess statFail set_waitGroup];
      try (intros _; exact Hinv).
    intros Hnp. destruct r as [[]|msg]; [|discriminate].
    destruct (run_task_log _ _ _ _ _ _ Hr)
      as (bp & bd & bf & Ep & Ed & Ef & Lp & Ld & Lf).
    assert (Hfin : Z.of_nat (List.length (fin s)) < MaxInt).
    { apply Permutation_length in Ht. cbn in Ht.
      rewrite !length_app in Ht.
      rewrite (remove_nth_length _ _ _ Hk) in Ht.
      rewrite workers_from_length in Ht. lia. }
    pose proof (total_counted_range (fin s)).
    rewrite Ep, Ed, Ef, !bump_small, !count_events_app by lia.
    destruct Hinv as (-> & -> & Hf). lia.
Qed.

Lemma Process_counters_match_log_witness :
  exists s,
    exec (fun _ => unix) two_episodes run_two_episodes
      (init (sample_dl 2) two_episodes) = Some s
    /\ statProcess (shared s) = count_events is_println (out s).
Proof.
  destruct (exec (fun _ => unix) two_episodes run_two_episodes
              (init (sample_dl 2) two_episodes)) as [s|] eqn:E;
    [|vm_compute in E; discriminate E].
  exists s. split; [reflexivity|].
  assert (Hc : crashed s = false).
  { vm_compute in E. injection E as <-. reflexivity. }
  exact (proj1 (Process_counters_match_log (fun _ => unix) unix
                  "/home/gopher"%string 2 two_episodes s
                  ltac:(vm_compute; reflexivity)
                  (exec_reachable _ _ _ _ _ E) Hc)).
Defined.

(* ------------------------------------------------------------------ *)
(** ** The cover beside a full batch *)

Lemma count_workers_workers_from (n : nat) (items : list Item) :
  count_workers (workers_from n items) = Z.of_nat (List.length items).
Proof.
  unfold count_workers. revert n.
  induction items as [|x rest IH]; intros n; cbn [workers_from filter is_worker];
    [reflexivity|].
  cbn [List.length]. rewrite !Nat2Z.inj_succ, IH. reflexivity.
Qed.

Lemma main_only_starts (env : Task -> Env) (feed : Feed) (t : Z) (k : nat) :
  1 <= t <= MaxInt ->
  forall (items : list Item) (c : Z) (n : nat) (s : Sched),
    crashed s = false ->
    main s = Process_loop t c n items ->
    0 <= c ->
    c + Z.of_nat k <= t ->
    (k <= List.length items)%nat ->
    exists s',
      exec env feed (main_only (2 * k)) s = Some s'
      /\ live s' = (live s ++ workers_from n (firstn k items))%list
      /\ fin s' = fin s
      /\ crashed s' = false.
Proof.
  intros Ht. induction k as [|k IH]; intros items c n s Hc Hm Hc0 Hck Hlen.
  - exists s. cbn. rewrite app_nil_r. auto.
  - destruct items as [|item rest]; [cbn in Hlen; lia|].
    cbn [Process_loop] in Hm.
    rewrite int_incr_small in Hm by (unfold MinInt; lia).
    replace (2 * S k)%nat with (S (S (2 * k))) by lia.
    unfold main_only. cbn [repeat exec]. unfold step at 1. rewrite Hc, Hm.
    cbn [exec]. unfold step at 1. cbn [crashed main].
    destruct k as [|k].
    + cbn. eexists. split; [reflexivity|]. cbn. auto.
    + destruct (Z.leb_spec t (c + 1)) as [Hfull|Hroom]; [lia|].
      edestruct (IH rest (c + 1) (S n)) as (s' & He & Hl & Hf & Hc');
        [ | | | | | exists s'; split; [exact He|] ];
        cbn [crashed main live fin]; try reflexivity; try lia.
      * cbn in Hlen. lia.
      * cbn [live fin] in Hl, Hf. rewrite Hl, <- app_assoc. auto.
Qed.

(** X10. The limit is on the workers only: on a feed of at least [threads]
    items a run reaches a state in which a full batch of [threads] workers
    and the cover are live together, [threads + 1] goroutines. *)
Theorem cover_beside_a_full_batch (env : Task -> Env) (e : Env)
  (home : string) (t : Z) (feed : Feed) :
  1 <= t <= MaxInt ->
  t <= Z.of_nat (List.length (Items feed)) ->
  exists s,
    reachable env (NewGlsdl e home t) feed s
    /\ crashed s = false
    /\ In TCover (live s)
    /\ count_workers (live s) = t.
Proof.
  intros Ht Hn.
  set (s0 := {| main := Process_loop t 0 0 (Items feed);
                shared := set_waitGroup 1 (NewGlsdl e home t);
                out := []; live := [TCover]; fin := []; crashed := false |}).
  destruct (main_only_starts env feed t (Z.to_nat t) Ht (Items feed) 0 0%nat s0
              eq_refl eq_refl ltac:(lia) ltac:(lia) ltac:(lia))
    as (s' & He & Hl & Hf & Hc).
  exists s'. split; [|split; [exact Hc|split]].
  - exists (RunMain :: RunMain :: main_only (2 * Z.to_nat t)). exact He.
  - rewrite Hl. now left.
  - rewrite Hl. cbn [live s0 app]. rewrite count_workers_cons.
    change (count_workers [TCover]) with 0.
    rewrite count_workers_workers_from, length_firstn. lia.
Qed.

Lemma cover_beside_a_full_batch_witness :
  exists s,
    reachable (fun _ => unix) (sample_dl 2) two_episodes s
    /\ crashed s = false
    /\ In TCover (live s)
    /\ count_workers (live s) = 2.
Proof.
  exact (cover_beside_a_full_batch (fun _ => unix) unix "/home/gopher"%string 2
           two_episodes ltac:(unfold MaxInt; lia) ltac:(cbn; lia)).
Defined.

(* ------------------------------------------------------------------ *)
(** ** What the pattern of [NewGlsdl] captures *)

Lemma lor_lower (a b : Z) : 0 <= b -> a <= Z.lor a b.
Proof.
  intros Hb. pose proof (Z.sub_lor_l_same_l b a) as H.
  assert (0 <= Z.land b (Z.lnot a)) by (apply Z.land_nonneg; now left).
  lia.
Qed.

Lemma land_63_nonneg (b : Z) : 0 <= Z.land b 63.
Proof. apply Z.land_nonneg. right. lia. Qed.

Lemma land_low_bits (a : Z) (n : Z) :
  0 <= n -> Z.land a (2 ^ n - 1) = a mod 2 ^ n.
Proof.
  intros Hn. rewrite <- Z.land_ones by exact Hn.
  now rewrite Z.ones_equiv, Z.sub_1_r.
Qed.

Lemma lor_shiftl_lower (a b k : Z) :
  0 <= k -> 0 <= b -> a * 2 ^ k <= Z.lor (Z.shiftl a k) b.
Proof.
  intros Hk Hb. rewrite Z.shiftl_mul_pow2 by exact Hk. now apply lor_lower.
Qed.

Lemma inClass_alnum_small (x : Z) :
  inClass x [(48, 57); (65, 90); (97, 122)] = true -> x < 128.
Proof.
  unfold inClass, existsb, between. cbn [fst snd]. lia.
Qed.

(** A decoded rune takes between one and four bytes off the string. *)
Lemma DecodeRuneInString_split (s : string) x w s' :
  DecodeRuneInString s = Some (x, w, s') ->
  exists u, s = (u ++ s')%string /\ String.length u = w /\ (1 <= w)%nat.
Proof.
  unfold DecodeRuneInString. destruct s as [|a0 s1]; [discriminate|].
  cbv zeta.
  destruct (byteZ a0 <? 128).
  { intros H; injection H as <- <- <-. exists (String a0 ""). auto. }
  destruct (byteZ a0 <? 194).
  { intros H; injection H as <- <- <-. exists (String a0 ""). auto. }
  destruct (byteZ a0 <? 224).
  { destruct s1 as [|a1 s2];
      [|destruct (between 128 191 (byteZ a1))];
      intros H; injection H as <- <- <-;
      first [ exists (String a0 ""); solve [repeat split; cbn; lia]
            | exists (String a0 (String a1 "")); solve [repeat split; cbn; lia] ]. }
  destruct (byteZ a0 <? 240).
  { destruct s1 as [|a1 [|a2 s3]];
      [| |destruct (between _ _ (byteZ a1) && between 128 191 (byteZ a2))];
      intros H; injection H as <- <- <-;
      first [ exists (String a0 ""); solve [repeat split; cbn; lia]
            | exists (String a0 (String a1 (String a2 ""))); solve [repeat split; cbn; lia] ]. }
  destruct (byteZ a0 <? 245).
  { destruct s1 as [|a1 [|a2 [|a3 s4]]];
      [| | |destruct (between _ _ (byteZ a1) && between 128 191 (byteZ a2)
                      && between 128 191 (byteZ a3))];
      intros H; injection H as <- <- <-;
      first [ exists (String a0 ""); solve [repeat split; cbn; lia]
            | exists (String a0 (String a1 (String a2 (String a3 ""))));
              solve [repeat split; cbn; lia] ]. }
  intros H; injection H as <- <- <-. exists (String a0 ""). auto.
Qed.

(** A rune below 128 is one byte, the byte itself. *)
Lemma DecodeRuneInString_ascii (s : string) x w s' :
  DecodeRuneInString s = Some (x, w, s') ->
  x < 128 ->
  exists a, s = String a s' /\ w = 1%nat /\ byteZ a = x.
Proof.
  unfold DecodeRuneInString. destruct s as [|a0 s1]; [discriminate|].
  cbv zeta. intros H Hx.
  destruct (Z.ltb_spec (byteZ a0) 128) as [Hlt|Hge].
  { injection H as <- <- <-. eauto. }
  exfalso.
  assert (Hbad : forall y (v : nat) z,
             Some (RuneError, 1%nat, s1) = Some (y, v, z) -> y < 128 -> False).
  { intros y v z E Hy. injection E as <- _ _. unfold RuneError in Hy. lia. }
  destruct (Z.ltb_spec (byteZ a0) 194) as [H1|H1]; [now eapply Hbad; eauto|].
  assert (Hb0 : byteZ a0 < 256).
  { unfold byteZ. pose proof (N_ascii_bounded a0). lia. }
  destruct (Z.ltb_spec (byteZ a0) 224) as [H2|H2].
  { destruct s1 as [|a1 s2]; [now eapply Hbad; eauto|].
    destruct (between 128 191 (byteZ a1)); [|now eapply Hbad; eauto].
    match type of H with
    | Some (?v, _, _) = _ => assert (E : x = v) by congruence
    end.
    rewrite E in Hx. clear E H.
    assert (2 <= Z.land (byteZ a0) 31).
    { rewrite (land_low_bits _ 5) by lia.
      replace (byteZ a0) with ((byteZ a0 - 192) + 6 * 2 ^ 5) by lia.
      rewrite Z.mod_add by lia. rewrite Z.mod_small; lia. }
    pose proof (lor_shiftl_lower (Z.land (byteZ a0) 31)
                  (Z.land (byteZ a1) 63) 6 ltac:(lia) (land_63_nonneg _)) as Hl.
    change (2 ^ 6) with 64 in Hl. lia. }
  destruct (Z.ltb_spec (byteZ a0) 240) as [H3|H3].
  { destruct s1 as [|a1 [|a2 s3]]; try (now eapply Hbad; eauto).
    destruct (between _ _ (byteZ a1) && between 128 191 (byteZ a2)) eqn:Eb;
      [|now eapply Hbad; eauto].
    match type of H with
    | Some (?v, _, _) = _ => assert (E : x = v) by congruence
    end.
    rewrite E in Hx. clear E H.
    apply andb_true_iff in Eb as [Eb1 _]. unfold between in Eb1.
    apply andb_true_iff in Eb1 as [Elo Ehi].
    assert (Hb1 : 128 <= byteZ a1 <= 191).
    { destruct (byteZ a0 =? 224), (byteZ a0 =? 237); lia. }
    assert (Hor : 128 <= Z.lor (Z.shiftl (Z.land (byteZ a0) 15) 12)
                           (Z.shiftl (Z.land (byteZ a1) 63) 6)).
    { assert (Ha : Z.land (byteZ a0) 15 = byteZ a0 - 224).
      { rewrite (land_low_bits _ 4) by lia.
        replace (byteZ a0) with ((byteZ a0 - 224) + 14 * 2 ^ 4) at 1 by lia.
        rewrite Z.mod_add by lia. rewrite Z.mod_small; lia. }
      assert (Hc : Z.land (byteZ a1) 63 = byteZ a1 mod 64).
      { exact (land_low_bits _ 6 ltac:(lia)). }
      rewrite Ha, Hc, !Z.shiftl_mul_pow2 by lia.
      destruct (Z.eqb_spec (byteZ a0) 224) as [E0|E0].
      - rewrite E0. cbn [Z.sub Z.add Z.opp Z.pos_sub Z.mul].
        rewrite Z.lor_0_l.
        assert (32 <= byteZ a1 mod 64).
        { replace (byteZ a1) with ((byteZ a1 - 128) + 2 * 64) by lia.
          rewrite Z.mod_add by lia. rewrite Z.mod_small; lia. }
        lia.
      - pose proof (lor_lower ((byteZ a0 - 224) * 2 ^ 12)
                      (byteZ a1 mod 64 * 2 ^ 6)
                      ltac:(pose proof (Z.mod_pos_bound (byteZ a1) 64); lia)).
        lia. }
    rewrite Z.lor_assoc in Hx.
    pose proof (lor_lower (Z.lor (Z.shiftl (Z.land (byteZ a0) 15) 12)
                             (Z.shiftl (Z.land (byteZ a1) 63) 6))
                  (Z.land (byteZ a2) 63) (land_63_nonneg _)).
    lia. }
  destruct (Z.ltb_spec (byteZ a0) 245) as [H4|H4]; [|now eapply Hbad; eauto].
  destruct s1 as [|a1 [|a2 [|a3 s4]]]; try (now eapply Hbad; eauto).
  destruct (between _ _ (byteZ a1) && between 128 191 (byteZ a2)
            && between 128 191 (byteZ a3)) eqn:Eb; [|now eapply Hbad; eauto].
  match type of H with
  | Some (?v, _, _) = _ => assert (E : x = v) by congruence
  end.
  rewrite E in Hx. clear E H.
  apply andb_true_iff in Eb as [Eb _]. apply andb_true_iff in Eb as [Eb1 _].
  unfold between in Eb1. apply andb_true_iff in Eb1 as [Elo Ehi].
  assert (Hb1 : 128 <= byteZ a1 <= 191).
  { destruct (byteZ a0 =? 240), (byteZ a0 =? 244); lia. }
  assert (Hor : 128 <= Z.lor (Z.shiftl (Z.land (byteZ a0) 7) 18)
                         (Z.shiftl (Z.land (byteZ a1) 63) 12)).
  { assert (Ha : Z.land (byteZ a0) 7 = byteZ a0 - 240).
    { rewrite (land_low_bits _ 3) by lia.
      replace (byteZ a0) with ((byteZ a0 - 240) + 30 * 2 ^ 3) at 1 by lia.
      rewrite Z.mod_add by lia. rewrite Z.mod_small; lia. }
    assert (Hc : Z.land (byteZ a1) 63 = byteZ a1 mod 64).
    { exact (land_low_bits _ 6 ltac:(lia)). }
    rewrite Ha, Hc, !Z.shiftl_mul_pow2 by lia.
    destruct (Z.eqb_spec (byteZ a0) 240) as [E0|E0].
    - rewrite E0. cbn [Z.sub Z.add Z.opp Z.pos_sub Z.mul].
      rewrite Z.lor_0_l.
      assert (16 <= byteZ a1 mod 64).
      { replace (byteZ a1) with ((byteZ a1 - 128) + 2 * 64) by lia.
        rewrite Z.mod_add by lia. rewrite Z.mod_small; lia. }
      lia.
    - pose proof (lor_lower ((byteZ a0 - 240) * 2 ^ 18)
                    (byteZ a1 mod 64 * 2 ^ 12)
                    ltac:(pose proof (Z.mod_pos_bound (byteZ a1) 64); lia)).
      lia. }
  assert (Hnn : 0 <= Z.lor (Z.shiftl (Z.land (byteZ a2) 63) 6)
                      (Z.land (byteZ a3) 63)).
  { apply Z.lor_nonneg. split; [|apply land_63_nonneg].
    apply Z.shiftl_nonneg, land_63_nonneg. }
  pose proof (lor_lower (Z.shiftl (Z.land (byteZ a0) 7) 18)
                (Z.lor (Z.shiftl (Z.land (byteZ a1) 63) 12)
                   (Z.lor (Z.shiftl (Z.land (byteZ a2) 63) 6)
                      (Z.land (byteZ a3) 63)))).
  assert (Hnn2 : 0 <= Z.land (byteZ a2) 63) by apply land_63_nonneg.
  rewrite Z.lor_assoc in Hx.
  pose proof (lor_lower (Z.lor (Z.shiftl (Z.land (byteZ a0) 7) 18)
                           (Z.shiftl (Z.land (byteZ a1) 63) 12))
                (Z.lor (Z.shiftl (Z.land (byteZ a2) 63) 6)
                   (Z.land (byteZ a3) 63)) Hnn).
  lia.
Qed.

Lemma string_app_assoc (a b c : string) :
  ((a ++ b) ++ c)%string = (a ++ b ++ c)%string.
Proof. induction a as [|x a IH]; cbn; [reflexivity|now rewrite IH]. Qed.

Lemma string_length_app (a b : string) :
  String.length (a ++ b) = (String.length a + String.length b)%nat.
Proof. induction a as [|x a IH]; cbn; [reflexivity|now rewrite IH]. Qed.

Lemma substring_front (b c : string) :
  substring 0 (String.length b) (b ++ c) = b.
Proof.
  induction b as [|x b IH]; cbn.
  - now destruct c.
  - now rewrite IH.
Qed.

Lemma substring_middle (a b c : string) :
  substring (String.length a) (String.length b) (a ++ b ++ c) = b.
Proof.
  induction a as [|x a IH]; cbn; [apply substring_front|exact IH].
Qed.

Lemma all_bytes_app (p : ascii -> bool) (a b : string) :
  all_bytes p (a ++ b) = all_bytes p a && all_bytes p b.
Proof.
  induction a as [|x a IH]; cbn; [reflexivity|].
  now rewrite IH, andb_assoc.
Qed.

(** Repetition keeps what one iteration keeps. *)
Lemma star_frames (holds : nat -> bool) (m : Cont -> Cont) (g : bool) :
  frames holds m ->
  forall (fuel : nat) (k : Cont) pos s c res,
    star m g k fuel pos s c = Some res ->
    exists u s' c',
      s = (u ++ s')%string
      /\ k (pos + String.length u)%nat s' c' = Some res
      /\ forall i, holds i = false -> lookup_cap i c' = lookup_cap i c.
Proof.
  intros Hm. induction fuel as [|f IH]; intros k pos s c res; cbn [star].
  - intros H. exists EmptyString, s, c. cbn. rewrite Nat.add_0_r. auto.
  - assert (Hagain :
      m (fun pos' s' c' =>
           if (pos <? pos')%nat then star m g k f pos' s' c' else None)
        pos s c = Some res ->
      exists u s' c',
        s = (u ++ s')%string
        /\ k (pos + String.length u)%nat s' c' = Some res
        /\ forall i, holds i = false -> lookup_cap i c' = lookup_cap i c).
    { intros H. apply Hm in H as (u1 & s1 & c1 & -> & H & Hc1).
      destruct (pos <? pos + String.length u1)%nat; [|discriminate].
      apply IH in H as (u2 & s2 & c2 & -> & H & Hc2).
      exists (u1 ++ u2)%string, s2, c2. split; [|split].
      - now rewrite string_app_assoc.
      - now rewrite string_length_app, Nat.add_assoc.
      - intros i Hi. now rewrite Hc2, Hc1. }
    assert (Hstop : k pos s c = Some res ->
      exists u s' c',
        s = (u ++ s')%string
        /\ k (pos + String.length u)%nat s' c' = Some res
        /\ forall i, holds i = false -> lookup_cap i c' = lookup_cap i c).
    { intros H. exists EmptyString, s, c. cbn. rewrite Nat.add_0_r. auto. }
    destruct g.
    + destruct (m _ pos s c) as [r|] eqn:E.
      * intros H. injection H as ->. now apply Hagain.
      * exact Hstop.
    + destruct (k pos s c) as [r|] eqn:E.
      * intros H. injection H as ->. now apply Hstop.
      * exact Hagain.
Qed.

Lemma rmatch_frames (r : Regexp) : frames (fun i => has_cap i r) (rmatch r).
Proof.
  induction r as [| ranges | | | | a IHa b IHb | g a IHa | g a IHa | j a IHa];
    intros k pos s c res; cbn [rmatch has_cap].
  - intros H. exists EmptyString, s, c. cbn. rewrite Nat.add_0_r. auto.
  - destruct (DecodeRuneInString s) as [[[x w] s']|] eqn:E; [|discriminate].
    destruct (inClass x ranges); [|discriminate].
    intros H. apply DecodeRuneInString_split in E as (u & -> & Hw & _).
    rewrite <- Hw in H. exists u, s', c. auto.
  - destruct (DecodeRuneInString s) as [[[x w] s']|] eqn:E; [|discriminate].
    destruct (x =? 10); [discriminate|].
    intros H. apply DecodeRuneInString_split in E as (u & -> & Hw & _).
    rewrite <- Hw in H. exists u, s', c. auto.
  - destruct (pos =? 0)%nat; [|discriminate].
    intros H. exists EmptyString, s, c. cbn. rewrite Nat.add_0_r. auto.
  - destruct s; [|discriminate].
    intros H. exists EmptyString, EmptyString, c. cbn. rewrite Nat.add_0_r. auto.
  - intros H. apply IHa in H as (u1 & s1 & c1 & -> & H & Hc1).
    apply IHb in H as (u2 & s2 & c2 & -> & H & Hc2).
    exists (u1 ++ u2)%string, s2, c2. split; [|split].
    + now rewrite string_app_assoc.
    + now rewrite string_length_app, Nat.add_assoc.
    + intros i Hi. apply orb_false_iff in Hi as [Hi1 Hi2].
      now rewrite Hc2, Hc1.
  - apply (star_frames _ _ g IHa).
  - intros H. apply IHa in H as (u1 & s1 & c1 & -> & H & Hc1).
    apply (star_frames _ _ g IHa) in H as (u2 & s2 & c2 & -> & H & Hc2).
    exists (u1 ++ u2)%string, s2, c2. split; [|split].
    + now rewrite string_app_assoc.
    + now rewrite string_length_app, Nat.add_assoc.
    + intros i Hi. now rewrite Hc2, Hc1.
  - intros H. apply IHa in H as (u1 & s1 & c1 & -> & H & Hc1).
    exists u1, s1, ((j, (pos, pos + String.length u1)%nat) :: c1).
    split; [reflexivity|]. split; [exact H|].
    intros i Hi. apply orb_false_iff in Hi as [Hij Hi].
    cbn [lookup_cap]. rewrite Hij. now apply Hc1.
Qed.

(** One letter or digit, then letters and digits. *)
Lemma alnum_step (k : Cont) pos s c res :
  rmatch class_alnum k pos s c = Some res ->
  exists a s',
    s = String a s' /\ is_alnum a = true /\ k (pos + 1)%nat s' c = Some res.
Proof.
  unfold class_alnum. cbn [rmatch].
  destruct (DecodeRuneInString s) as [[[x w] s']|] eqn:E; [|discriminate].
  destruct (inClass x _) eqn:Hin; [|discriminate].
  pose proof (inClass_alnum_small _ Hin) as Hx.
  destruct (DecodeRuneInString_ascii _ _ _ _ E Hx) as (a & -> & -> & <-).
  intros H. exists a, s'. auto.
Qed.

Lemma alnum_star (g : bool) (fuel : nat) (k : Cont) pos s c res :
  star (rmatch class_alnum) g k fuel pos s c = Some res ->
  exists u s',
    s = (u ++ s')%string
    /\ all_bytes is_alnum u = true
    /\ k (pos + String.length u)%nat s' c = Some res.
Proof.
  revert k pos s c res.
  induction fuel as [|f IH]; intros k pos s c res; cbn [star].
  - intros H. exists EmptyString, s. cbn. rewrite Nat.add_0_r. auto.
  - assert (Hagain :
      rmatch class_alnum
        (fun pos' s' c' =>
           if (pos <? pos')%nat
           then star (rmatch class_alnum) g k f pos' s' c' else None)
        pos s c = Some res ->
      exists u s',
        s = (u ++ s')%string
        /\ all_bytes is_alnum u = true
        /\ k (pos + String.length u)%nat s' c = Some res).
    { intros H. apply alnum_step in H as (a & s1 & -> & Ha & H).
      destruct (pos <? pos + 1)%nat; [|discriminate].
      apply IH in H as (u2 & s2 & -> & Hu & H).
      exists (String a u2), s2.
      cbn [append all_bytes String.length]. rewrite Ha, Hu.
      replace (pos + S (String.length u2))%nat
        with (pos + 1 + String.length u2)%nat by lia.
      auto. }
    assert (Hstop : k pos s c = Some res ->
      exists u s',
        s = (u ++ s')%string
        /\ all_bytes is_alnum u = true
        /\ k (pos + String.length u)%nat s' c = Some res).
    { intros H. exists EmptyString, s. cbn. rewrite Nat.add_0_r. auto. }
    destruct g.
    + destruct (rmatch class_alnum _ pos s c) as [r|] eqn:E.
      * intros H. injection H as ->. now apply Hagain.
      * exact Hstop.
    + destruct (k pos s c) as [r|] eqn:E.
      * intros H. injection H as ->. now apply Hstop.
      * exact Hagain.
Qed.

Lemma alnum_plus (k : Cont) pos s c res :
  rmatch (Plus true class_alnum) k pos s c = Some res ->
  exists u s',
    s = (u ++ s')%string
    /\ u <> EmptyString
    /\ all_bytes is_alnum u = true
    /\ k (pos + String.length u)%nat s' c = Some res.
Proof.
  cbn [rmatch]. intros H.
  apply alnum_step in H as (a & s1 & -> & Ha & H).
  apply alnum_star in H as (u2 & s2 & -> & Hu & H).
  exists (String a u2), s2.
      cbn [append all_bytes String.length]. rewrite Ha, Hu.
  replace (pos + S (String.length u2))%nat
    with (pos + 1 + String.length u2)%nat by lia.
  repeat split; auto. discriminate.
Qed.

Lemma glsPattern_parts :
  glsPattern
  = Concat BeginText
      (Concat (Plus true (class_of_chars "Выпуск|Episode"))
         (Concat (Plus true class_space)
            (Concat (Capture 1 (Plus true class_alnum)) glsRest))).
Proof. reflexivity. Qed.

(** A match of the pattern starts at offset 0 and its first group is a
    non-empty run of letters and digits of the input. *)
Lemma glsPattern_group_1 (pos : nat) (s : string) e cf :
  rmatch glsPattern accept pos s [] = Some (e, cf) ->
  pos = 0%nat
  /\ exists a u b,
       s = (a ++ u ++ b)%string
       /\ u <> EmptyString
       /\ all_bytes is_alnum u = true
       /\ lookup_cap 1 cf
          = Some (String.length a, (String.length a + String.length u)%nat).
Proof.
  rewrite glsPattern_parts. cbn [rmatch].
  destruct pos as [|pos]; [|discriminate]. cbn [Nat.eqb].
  intros H. split; [reflexivity|].
  change (rmatch (Plus true (class_of_chars "Выпуск|Episode"))
            (rmatch (Concat (Plus true class_space)
                       (Concat (Capture 1 (Plus true class_alnum)) glsRest))
               accept) 0%nat s [] = Some (e, cf)) in H.
  apply rmatch_frames in H as (u1 & s1 & c1 & -> & H & _).
  change (rmatch (Plus true class_space)
            (rmatch (Concat (Capture 1 (Plus true class_alnum)) glsRest) accept)
            (0 + String.length u1)%nat s1 c1 = Some (e, cf)) in H.
  apply rmatch_frames in H as (u2 & s2 & c2 & -> & H & _).
  change (rmatch (Plus true class_alnum)
            (fun pos' s' c' =>
               rmatch glsRest accept pos' s'
                 ((1%nat, ((0 + String.length u1 + String.length u2)%nat, pos'))
                  :: c'))
            (0 + String.length u1 + String.length u2)%nat s2 c2 = Some (e, cf)) in H.
  apply alnum_plus in H as (u3 & s3 & -> & Hne & Hal & H).
  apply rmatch_frames in H as (u4 & s4 & c4 & -> & H & Hc4).
  unfold accept in H. injection H as _ <-.
  exists (u1 ++ u2)%string, u3, (u4 ++ s4)%string.
  split; [now rewrite !string_app_assoc|]. split; [exact Hne|].
  split; [exact Hal|].
  rewrite (Hc4 1%nat eq_refl). cbn [lookup_cap Nat.eqb].
  now rewrite string_length_app.
Qed.

Lemma search_gls_later (fuel pos : nat) (s : string) :
  pos <> 0%nat -> search glsPattern fuel pos s = None.
Proof.
  revert pos s. induction fuel as [|f IH]; intros pos s Hpos; cbn [search];
    change (fun (p : nat) (_ : string) (c : Caps) => Some (p, c)) with accept;
    destruct (rmatch glsPattern accept pos s []) as [[e c]|] eqn:E;
    try (apply glsPattern_group_1 in E as [E _]; now elim Hpos);
    try reflexivity.
  destruct (DecodeRuneInString s) as [[[x w] s']|]; [|reflexivity].
  apply IH. lia.
Qed.

Lemma search_gls (fuel pos : nat) (s : string) b e c :
  search glsPattern fuel pos s = Some (b, e, c) ->
  b = 0%nat /\ rmatch glsPattern accept b s [] = Some (e, c).
Proof.
  destruct fuel as [|f]; cbn [search];
    change (fun (p : nat) (_ : string) (c : Caps) => Some (p, c)) with accept;
    destruct (rmatch glsPattern accept pos s []) as [[e' c']|] eqn:E;
    try discriminate.
  - intros H. injection H as <- <- <-.
    destruct (glsPattern_group_1 _ _ _ _ E) as [-> _]. now split.
  - intros H. injection H as <- <- <-.
    destruct (glsPattern_group_1 _ _ _ _ E) as [-> _]. now split.
  - destruct (DecodeRuneInString s) as [[[x w] s']|] eqn:D; [|discriminate].
    apply DecodeRuneInString_split in D as (_ & _ & _ & Hw).
    rewrite search_gls_later by lia. discriminate.
Qed.

(** The second element of a match of the pattern. *)
Lemma FindStringSubmatch_gls_prefix (s w p : string) (rest : list string) :
  FindStringSubmatch glsPattern s = w :: p :: rest ->
  p <> EmptyString /\ all_bytes is_alnum p = true.
Proof.
  unfold FindStringSubmatch.
  destruct (search glsPattern (String.length s) 0 s) as [[[b e] c]|] eqn:E;
    [|discriminate].
  apply search_gls in E as [-> E].
  destruct (glsPattern_group_1 _ _ _ _ E) as (_ & a & u & t & -> & Hne & Hal & Hc).
  change (NumSubexp glsPattern) with 2%nat. cbn [seq map].
  rewrite Hc. intros H. injection H as _ <- _.
  replace (String.length a + String.length u - String.length a)%nat
    with (String.length u) by lia.
  rewrite substring_middle. now split.
Qed.

Lemma all_bytes_contains (p : ascii -> bool) (c : ascii) (s : string) :
  p c = false -> all_bytes p s = true -> contains_byte c s = false.
Proof.
  intros Hc. induction s as [|a s IH]; cbn; [reflexivity|].
  intros H. apply andb_true_iff in H as [Ha Hs].
  rewrite (IH Hs), orb_false_r.
  apply Ascii.eqb_neq. intros ->. congruence.
Qed.

(** X15. When the pattern of [NewGlsdl] matches the title of an item, the
    prefix [parseTitle] returns, the episode number, is a non-empty string
    of ASCII letters and digits. *)
Theorem parseTitle_matched_prefix_alnum (e : Env) (dl : Glsdl) (item : Item)
  (prefix title : string) :
  parsePattern dl = glsPattern ->
  FindStringSubmatch glsPattern (Title item) <> [] ->
  parseTitle e dl item = Ret (prefix, title) ->
  prefix <> EmptyString /\ all_bytes is_alnum prefix = true.
Proof.
  intros Hp Hm. unfold parseTitle. rewrite Hp.
  destruct (FindStringSubmatch glsPattern (Title item))
    as [|w [|p [|t l]]] eqn:E; [now elim Hm| | |]; cbn; try discriminate.
  apply FindStringSubmatch_gls_prefix in E.
  destruct (String.length t =? 0)%nat.
  - destruct (Author item); [|discriminate].
    intros H. now injection H as <- _.
  - intros H. now injection H as <- _.
Qed.

Lemma parseTitle_matched_prefix_alnum_witness :
  all_bytes is_alnum "12"%string = true.
Proof.
  exact (proj2 (parseTitle_matched_prefix_alnum unix (sample_dl 4)
                  (episode "Episode 12. Something Great"%string)
                  "12"%string "Something Great"%string
                  eq_refl ltac:(vm_compute; discriminate) eq_refl)).
Defined.

(** X16. On Unix, where [/] is the path separator, the media file of an
    item whose title the pattern matches lies directly in the download
    directory: its path is the directory, one [/] and a name that holds no
    [/]. *)
Theorem mediaFile_directly_in_downloadDir (e : Env) (dl : Glsdl) (item : Item)
  (prefix title : string) :
  PathSeparator e = "/"%char ->
  parsePattern dl = glsPattern ->
  FindStringSubmatch glsPattern (Title item) <> [] ->
  parseTitle e dl item = Ret (prefix, title) ->
  mediaFile e dl prefix title
  = (downloadDir dl ++ "/" ++ mediaName prefix title)%string
  /\ contains_byte "/"%char (mediaName prefix title) = false.
Proof.
  intros Hps Hp Hm Hparse. split.
  { unfold mediaFile, ps. now rewrite Hps. }
  assert (Hpre : contains_byte "/"%char prefix = false).
  { unfold parseTitle in Hparse. rewrite Hp in Hparse.
    destruct (FindStringSubmatch glsPattern (Title item))
      as [|w [|p [|t l]]] eqn:E; [now elim Hm| | |]; cbn in Hparse;
      try discriminate.
    apply FindStringSubmatch_gls_prefix in E as [_ E].
    assert (prefix = p).
    { destruct (String.length t =? 0)%nat; [destruct (Author item)|];
        congruence. }
    subst p. apply (all_bytes_contains is_alnum); [reflexivity|exact E]. }
  assert (Htitle : contains_byte "/"%char title = false).
  { unfold parseTitle in Hparse. rewrite Hp in Hparse.
    destruct (FindStringSubmatch glsPattern (Title item))
      as [|w [|p [|t l]]]; [now elim Hm| | |]; cbn in Hparse;
      try discriminate.
    unfold ps in Hparse. rewrite Hps in Hparse.
    destruct (String.length t =? 0)%nat; [destruct (Author item)|];
      try discriminate; injection Hparse as _ <-;
      now apply strings_Replace_clean. }
  unfold mediaName.
  now rewrite !contains_byte_append, Hpre, Htitle.
Qed.

Lemma mediaFile_directly_in_downloadDir_witness :
  contains_byte "/"%char (mediaName "7" "A_B") = false.
Proof.
  exact (proj2 (mediaFile_directly_in_downloadDir unix (sample_dl 4)
                  (episode "Episode 7. A/B"%string) "7"%string "A_B"%string
                  eq_refl eq_refl
                  ltac:(vm_compute; discriminate) eq_refl)).
Defined.

(* ------------------------------------------------------------------ *)
(** ** [Report] *)

Lemma strconv_Itoa_inj (z z' : Z) : strconv_Itoa z = strconv_Itoa z' -> z = z'.
Proof.
  unfold strconv_Itoa. intros H.
  assert (Hnil : forall y, Z.to_int y <> Decimal.Pos Decimal.Nil
                           /\ Z.to_int y <> Decimal.Neg Decimal.Nil).
  { intros y. split; intros E;
      assert (Hy : y = 0) by (rewrite <- (DecimalZ.of_to y), E; reflexivity);
      subst y; discriminate E. }
  apply (f_equal NilZero.int_of_string) in H.
  rewrite !NilZero.isi in H by apply Hnil.
  injection H as H. apply (f_equal Z.of_int) in H.
  now rewrite !DecimalZ.of_to in H.
Qed.

Lemma string_app_cancel_r (a b c : string) :
  (a ++ c)%string = (b ++ c)%string -> a = b.
Proof.
  intros H.
  assert (Hlen : String.length a = String.length b).
  { apply (f_equal String.length) in H. rewrite !string_length_app in H. lia. }
  revert b H Hlen. induction a as [|x a IH]; intros [|y b] H Hlen;
    try discriminate Hlen; [reflexivity|].
  cbn in H. injection H as -> H. f_equal. apply IH; [exact H|].
  cbn in Hlen. lia.
Qed.

(** X17. The report loses nothing: two reports are equal only when the three
    counters and the time spent are. *)
Theorem Report_injective (dl dl' : Glsdl) (spent spent' : string) :
  Report dl spent = Report dl' spent' ->
  statDl dl = statDl dl'
  /\ statProcess dl = statProcess dl'
  /\ statFail dl = statFail dl'
  /\ spent = spent'.
Proof.
  unfold Report. intros H. injection H as H1 H2 H3 H4.
  apply string_app_cancel_r in H1, H2, H3, H4.
  repeat split; auto using strconv_Itoa_inj.
Qed.

Lemma Report_injective_witness :
  statProcess (sample_dl 4) = statProcess (sample_dl 2).
Proof.
  exact (proj1 (proj2 (Report_injective (sample_dl 4) (sample_dl 2)
                         "1.5s"%string "1.5s"%string eq_refl))).
Defined.

(* ------------------------------------------------------------------ *)
(** ** When [parseTitle] panics *)

(** X18. With the pattern of [NewGlsdl], [parseTitle] panics exactly on an item
    without author whose title matches with nothing after the episode
    number: only then is [item.Author.Name] read. *)
Theorem parseTitle_panics_iff (e : Env) (dl : Glsdl) (item : Item) :
  parsePattern dl = glsPattern ->
  is_panic (parseTitle e dl item) = true
  <-> Author item = None
      /\ exists w p, FindStringSubmatch glsPattern (Title item)
                     = [w; p; EmptyString].
Proof.
  intros Hp. unfold parseTitle. rewrite Hp.
  destruct (FindStringSubmatch_shape glsPattern (Title item)) as [H|H].
  - rewrite H. cbn. split; [discriminate|]. intros (_ & w & p & E). discriminate.
  - change (NumSubexp glsPattern) with 2%nat in H.
    destruct (FindStringSubmatch glsPattern (Title item))
      as [|w [|p [|t [|x l]]]]; try discriminate H.
    cbn [List.length Nat.eqb nth_error].
    destruct t as [|c t]; cbn [String.length Nat.eqb].
    + destruct (Author item) as [a|]; cbn; split.
      * discriminate.
      * intros [E _]. discriminate.
      * intros _. eauto.
      * reflexivity.
    + cbn. split; [discriminate|].
      intros (_ & w' & p' & E). discriminate.
Qed.

Lemma parseTitle_panics_iff_witness :
  is_panic (parseTitle unix (sample_dl 4)
              {| Title := "Episode 5."; Published := ""; Author := None;
                 Enclosures := [] |}) = true.
Proof.
  apply (parseTitle_panics_iff unix (sample_dl 4)
           {| Title := "Episode 5."; Published := ""; Author := None;
              Enclosures := [] |} eq_refl).
  split; [reflexivity|]. exists "Episode 5."%string, "5"%string.
  vm_compute. reflexivity.
Defined.

(* ------------------------------------------------------------------ *)
(** ** [Done] *)

(** X19. Every goroutine signals the wait group once, however it ends: the
    deferred [Done] also runs when the goroutine returns early or panics. *)
Theorem run_task_signals_once (env : Task -> Env) (feed : Feed) (t : Task)
  (d : Glsdl) :
  waitGroup (snd (fst (run_task env feed t d))) = waitGroup d - 1.
Proof.
  destruct (run_task env feed t d) as [[r d'] ev] eqn:E.
  now apply run_task_effect in E as [Hw _].
Qed.
